(** * EditorBuffer (linked-list representation): a shallow embedding

    The class of [buffer.cpp] (Programming Abstractions in C++, chapter 13,
    exercise 7, list-based version) keeps the text of an editor in a singly
    linked chain of heap cells that starts with a dummy cell.  Two pointers,
    [start] and [cursor], point into the chain, and a [std::string] holds
    the clipboard.

    The embedding keeps that representation: a heap of cells addressed by
    pointers, [NULL] as [None], every method a function on the record of
    the object's fields.  A method that dereferences a pointer may fault and
    a method that loops may fail to finish, so methods return a [result];
    a method with a loop takes the number of iterations it may spend on
    each of its loops, its fuel, and it returns when some amount of fuel
    makes it return. *)

From Stdlib Require Import ZArith Ascii String.
From stdpp Require Import base option list gmap.

Local Open Scope Z_scope.

(** ** Results of running a method *)

Inductive result (A : Type) : Type :=
| Done (a : A)      (* the method returned *)
| Fault             (* a dangling or null pointer was dereferenced, or an
                       index was out of range *)
| OutOfFuel.        (* a loop was still running when the fuel ran out *)

Arguments Done {A} a.
Arguments Fault {A}.
Arguments OutOfFuel {A}.

Definition bind {A B : Type} (m : result A) (k : A → result B) : result B :=
  match m with
  | Done a => k a
  | Fault => Fault
  | OutOfFuel => OutOfFuel
  end.

Notation "'do' x <- m ; k" := (bind m (fun x => k))
  (at level 10, x name, m at level 100, k at level 200,
   format "'[v' 'do'  x  <-  m ; '/' k ']'").
Notation "'do' ' p <- m ; k" := (bind m (fun x => let 'p := x in k))
  (at level 10, p pattern, m at level 100, k at level 200,
   format "'[v' 'do'  ' p  <-  m ; '/' k ']'").

(** [while fuel cond body s] runs [while (cond) body] from the state [s]
    of the variables the loop reads and writes. *)

Fixpoint while {S : Type} (fuel : nat) (cond : S → result bool)
    (body : S → result S) (s : S) : result S :=
  match fuel with
  | O => OutOfFuel
  | Datatypes.S fuel' =>
      do c <- cond s;
      if c : bool then do s' <- body s; while fuel' cond body s' else Done s
  end.

(** The body of a [for] loop ends normally or by [continue] ([Next]: the
    increment runs and the condition is tested again) or by [break]. *)

Inductive control (S : Type) : Type :=
| Next (s : S)
| Break (s : S).

Arguments Next {S} s.
Arguments Break {S} s.

Fixpoint for_loop {S : Type} (fuel : nat) (cond : S → bool)
    (incr : S → result S) (body : S → result (control S)) (s : S) : result S :=
  match fuel with
  | O => OutOfFuel
  | Datatypes.S fuel' =>
      if cond s then
        do c <- body s;
        match c with
        | Next s' => do s'' <- incr s'; for_loop fuel' cond incr body s''
        | Break s' => Done s'
        end
      else Done s
  end.

(** ** Machine integers

    The class is compiled for an LP64 target: [int] has 32 bits and
    [size_t] has 64.  An [int] is a [Z] in [[INT_MIN, INT_MAX]].  Counters
    of type [int] that the methods increment ([nChars] of [getCursor], the
    indices [i]) are computed in [Z]: they count characters of the buffer,
    and signed overflow, reached only by a buffer of more than [INT_MAX]
    characters, has no defined behaviour to embed.  The computed value is
    the value of the [int] as long as the text has at most [INT_MAX]
    characters, and the theorems on the value of [getCursor()] and on what
    [copyWords] copies ask for that.  The conversion of an
    [int] argument to the [size_t] parameter of [std::string::substr] is
    defined for every [int], and is written out. *)

Definition INT_MIN : Z := - 2 ^ 31.
Definition INT_MAX : Z := 2 ^ 31 - 1.
Definition SIZE_MAX : Z := 2 ^ 64 - 1.

(** A [std::string] cannot be longer than the largest object. *)
Definition PTRDIFF_MAX : Z := 2 ^ 63 - 1.

(* static_cast<size_t>(n): reduction modulo 2^64 *)
Definition to_size_t (n : Z) : Z := n mod (SIZE_MAX + 1).

(** ** Characters and strings *)

Definition SPACE : ascii := " "%char.
Definition NEWLINE : ascii := "010"%char.

(* ch == SPACE || ch == NEWLINE *)
Definition is_delim (c : ascii) : bool :=
  bool_decide (c = SPACE) || bool_decide (c = NEWLINE).

(** A [std::string] is the list of its characters. *)
Abbreviation cstring := (list ascii).

(* a string literal *)
Definition lit (s : string) : cstring := list_ascii_of_string s.

(* str.substr(pos, n) for size_t arguments: the characters from [pos] on,
   at most [n] of them; std::out_of_range when [pos > str.size()] *)
Definition substr (str : cstring) (pos n : Z) : result cstring :=
  if Z.of_nat (length str) <? pos then Fault
  else Done (take (Z.to_nat (Z.min n (Z.of_nat (length str) - pos)))
                  (drop (Z.to_nat pos) str)).

(* str[i] *)
Definition char_at (str : cstring) (i : Z) : result ascii :=
  if (0 <=? i) && (i <? Z.of_nat (length str)) then
    match str !! Z.to_nat i with
    | Some c => Done c
    | None => Fault
    end
  else Fault.

(** ** The free store and the object

    A [Cell *] is [None] for [NULL] and [Some a] for the address [a] of a
    cell; the free store maps the addresses of the live cells to their
    contents. *)

Abbreviation addr := positive.

(** Modelled from the spec: [buffer.h], which declares [struct Cell] and
    the data members of the class, is not among the sources.  The spec
    describes a chain of character cells with raw successor links, a cursor
    and a clipboard string; the fields are the ones [buffer.cpp] reads and
    writes: [ch] and [link] of a cell, [start], [cursor] and
    [copyString] of the buffer. *)
Record Cell : Type := mkCell { ch : ascii; link : option addr }.

(** Modelled from the spec: the data members of [EditorBuffer] (see
    [Cell]), together with the free store that holds the cells. *)
Record EditorBuffer : Type := mkBuffer {
  heap : gmap addr Cell;        (* the free store *)
  start : option addr;          (* Cell *start *)
  cursor : option addr;         (* Cell *cursor *)
  copyString : cstring          (* std::string copyString *)
}.

Definition with_heap (b : EditorBuffer) (h : gmap addr Cell) : EditorBuffer :=
  mkBuffer h (start b) (cursor b) (copyString b).
Definition with_cursor (b : EditorBuffer) (p : option addr) : EditorBuffer :=
  mkBuffer (heap b) (start b) p (copyString b).
Definition with_copyString (b : EditorBuffer) (s : cstring) : EditorBuffer :=
  mkBuffer (heap b) (start b) (cursor b) s.

(* *p, read *)
Definition deref (h : gmap addr Cell) (p : option addr) : result Cell :=
  match p with
  | Some a => match h !! a with Some c => Done c | None => Fault end
  | None => Fault
  end.

(* p->link = q *)
Definition set_link (h : gmap addr Cell) (p q : option addr)
    : result (gmap addr Cell) :=
  match p with
  | Some a =>
      match h !! a with
      | Some c => Done (<[a := mkCell (ch c) q]> h)
      | None => Fault
      end
  | None => Fault
  end.

(* new Cell: the address of storage that is not in use *)
Definition new_Cell (h : gmap addr Cell) : addr := fresh (dom h).

(* delete p *)
Definition delete_Cell (h : gmap addr Cell) (p : option addr)
    : result (gmap addr Cell) :=
  match p with
  | Some a =>
      match h !! a with
      | Some _ => Done (delete a h)
      | None => Fault
      end
  | None => Done h
  end.

(** ** The methods *)

(** The constructor allocates the dummy cell, sets its link to [NULL] and
    never writes its [ch] field: [junk] is the character that happens to
    be in that storage. *)
Definition EditorBuffer_new (junk : ascii) : EditorBuffer :=
  let p := new_Cell ∅ in
  mkBuffer {[ p := mkCell junk None ]} (Some p) (Some p) [].

Definition moveCursorForward (b : EditorBuffer) : result EditorBuffer :=
  do c <- deref (heap b) (cursor b);
  if bool_decide (link c ≠ None) then Done (with_cursor b (link c))
  else Done b.

(* cursor->link != NULL && (cursor->link->ch == SPACE || ... == NEWLINE) *)
Definition right_is_delim (b : EditorBuffer) : result bool :=
  do c <- deref (heap b) (cursor b);
  if bool_decide (link c ≠ None) then
    do n <- deref (heap b) (link c);
    Done (bool_decide (ch n = SPACE) || bool_decide (ch n = NEWLINE))
  else Done false.

(* cursor->link != NULL && cursor->link->ch != SPACE && ... != NEWLINE *)
Definition right_is_word (b : EditorBuffer) : result bool :=
  do c <- deref (heap b) (cursor b);
  if bool_decide (link c ≠ None) then
    do n <- deref (heap b) (link c);
    Done (bool_decide (ch n ≠ SPACE) && bool_decide (ch n ≠ NEWLINE))
  else Done false.

Definition moveCursorForwardWord (fuel : nat) (b : EditorBuffer)
    : result EditorBuffer :=
  do b1 <- while fuel right_is_delim moveCursorForward b;
  while fuel right_is_word moveCursorForward b1.

Definition moveCursorBackward (fuel : nat) (b : EditorBuffer)
    : result EditorBuffer :=
  let cp := start b in
  if bool_decide (cursor b ≠ start b) then
    do cp' <- while fuel
                (fun cp => do c <- deref (heap b) cp;
                           Done (bool_decide (link c ≠ cursor b)))
                (fun cp => do c <- deref (heap b) cp; Done (link c))
                cp;
    Done (with_cursor b cp')
  else Done b.

(* cursor != NULL && (cursor->ch == SPACE || cursor->ch == NEWLINE) *)
Definition left_is_delim (b : EditorBuffer) : result bool :=
  if bool_decide (cursor b ≠ None) then
    do c <- deref (heap b) (cursor b);
    Done (bool_decide (ch c = SPACE) || bool_decide (ch c = NEWLINE))
  else Done false.

(* cursor != NULL && cursor->ch != SPACE && cursor->ch != NEWLINE *)
Definition left_is_word (b : EditorBuffer) : result bool :=
  if bool_decide (cursor b ≠ None) then
    do c <- deref (heap b) (cursor b);
    Done (bool_decide (ch c ≠ SPACE) && bool_decide (ch c ≠ NEWLINE))
  else Done false.

Definition moveCursorBackwardWord (fuel : nat) (b : EditorBuffer)
    : result EditorBuffer :=
  do b1 <- while fuel left_is_delim (moveCursorBackward fuel) b;
  while fuel left_is_word (moveCursorBackward fuel) b1.

Definition moveCursorToStart (b : EditorBuffer) : result EditorBuffer :=
  Done (with_cursor b (start b)).

Definition moveCursorToEnd (fuel : nat) (b : EditorBuffer)
    : result EditorBuffer :=
  while fuel
    (fun b => do c <- deref (heap b) (cursor b);
              Done (bool_decide (link c ≠ None)))
    (fun b => do c <- deref (heap b) (cursor b);
              Done (with_cursor b (link c)))
    b.

Definition insertCharacter (c : ascii) (b : EditorBuffer)
    : result EditorBuffer :=
  let cp := new_Cell (heap b) in
  do cur <- deref (heap b) (cursor b);
  (* cp->ch = ch; cp->link = cursor->link; *)
  let h1 := <[cp := mkCell c (link cur)]> (heap b) in
  do h2 <- set_link h1 (cursor b) (Some cp);
  Done (with_cursor (with_heap b h2) (Some cp)).

Definition insertString (fuel : nat) (str : cstring) (b : EditorBuffer)
    : result EditorBuffer :=
  do '(_, b') <-
    for_loop fuel
      (fun '(i, _) => i <? Z.of_nat (length str))
      (fun '(i, b) => Done (i + 1, b))
      (fun '(i, b) => do c <- char_at str i;
                      do b' <- insertCharacter c b;
                      Done (Next (i, b')))
      (0, b);
  Done b'.

(* getText(startCell) *)
Definition getText_from (fuel : nat) (startCell : option addr)
    (b : EditorBuffer) : result cstring :=
  do first <- deref (heap b) startCell;
  do '(_, str) <-
    for_loop fuel
      (fun '(cp, _) => bool_decide (cp ≠ None))
      (fun '(cp, str) => do c <- deref (heap b) cp; Done (link c, str))
      (fun '(cp, str) => do c <- deref (heap b) cp;
                         Done (Next (cp, str ++ [ch c])))
      (link first, []);
  Done str.

(* getText(): the same loop, from [start] *)
Definition getText (fuel : nat) (b : EditorBuffer) : result cstring :=
  getText_from fuel (start b) b.

Definition getCursor (fuel : nat) (b : EditorBuffer) : result Z :=
  do '(_, nChars) <-
    for_loop fuel
      (fun '(cp, _) => bool_decide (cp ≠ cursor b))
      (fun '(cp, nChars) => do c <- deref (heap b) cp; Done (link c, nChars))
      (fun '(cp, nChars) => Done (Next (cp, nChars + 1)))
      (start b, 0);
  Done nChars.

Definition copy (fuel : nat) (nChars : Z) (b : EditorBuffer)
    : result EditorBuffer :=
  do text <- getText_from fuel (cursor b) b;
  do s <- substr text 0 (to_size_t nChars);
  Done (with_copyString b s).

Definition copyWords (fuel : nat) (nWords : Z) (b : EditorBuffer)
    : result EditorBuffer :=
  do charString <- getText_from fuel (cursor b) b;
  let len := Z.of_nat (length charString) in
  do '(_, i) <-
    while fuel
      (fun '(nWords, _) => Done (0 <? nWords))
      (fun '(nWords, i) =>
         do i1 <-
           for_loop fuel (fun i => i <? len) (fun i => Done (i + 1))
             (fun i => do c <- char_at charString i;
                       if bool_decide (c = SPACE) || bool_decide (c = NEWLINE)
                       then Done (Next i)       (* continue *)
                       else Done (Break i))
             i;
         do '(nWords2, i2) <-
           for_loop fuel (fun '(_, i) => i <? len)
             (fun '(nWords, i) => Done (nWords, i + 1))
             (fun '(nWords, i) =>
                do c <- char_at charString i;
                if bool_decide (c = SPACE) || bool_decide (c = NEWLINE)
                then Done (Break (nWords - 1, i))
                else Done (Next (nWords, i)))
             (nWords, i1);
         if i2 =? len then Done (0, i2) else Done (nWords2, i2))
      (nWords, 0);
  do s <- substr charString 0 (to_size_t i);
  Done (with_copyString b s).

Definition paste (fuel : nat) (b : EditorBuffer) : result EditorBuffer :=
  insertString fuel (copyString b) b.

Definition deleteCharacter (b : EditorBuffer) : result EditorBuffer :=
  do c <- deref (heap b) (cursor b);
  if bool_decide (link c ≠ None) then
    let oldCell := link c in
    do n <- deref (heap b) (link c);
    do h1 <- set_link (heap b) (cursor b) (link n);
    do h2 <- delete_Cell h1 oldCell;
    Done (with_heap b h2)
  else Done b.

Definition deleteWord (fuel : nat) (b : EditorBuffer) : result EditorBuffer :=
  do b1 <- while fuel right_is_delim deleteCharacter b;
  while fuel right_is_word deleteCharacter b1.

(** ** The representation invariant

    The cells reachable from [start] form a chain without repetition that
    ends in [NULL]; [cursor] points at one of them.  The cell at [cursor]
    holds the character to the left of the cursor (the dummy cell when the
    cursor is at the start of the text). *)

Abbreviation cells := (list (addr * ascii)).

(* the address a chain of cells begins with *)
Definition head_addr (xs : cells) (q : option addr) : option addr :=
  match xs with
  | [] => q
  | x :: _ => Some x.1
  end.

(* [xs] are the cells met from [p] until the link [q] is reached *)
Fixpoint lseg (h : gmap addr Cell) (p : option addr) (xs : cells)
    (q : option addr) : Prop :=
  match xs with
  | [] => p = q
  | x :: rest =>
      p = Some x.1 ∧ ∃ n, h !! x.1 = Some (mkCell x.2 n) ∧ lseg h n rest q
  end.

Record buffer_cells (b : EditorBuffer) (before : cells) (cur : addr * ascii)
    (after : cells) : Prop := {
  cells_cursor : cursor b = Some cur.1;
  cells_chain : lseg (heap b) (start b) (before ++ cur :: after) None;
  cells_nodup : NoDup (before ++ cur :: after).*1
}.

(** [buffer_rep b d l r clip]: the buffer holds the text [l ++ r] with the
    cursor between [l] and [r], the clipboard holds [clip], and the dummy
    cell holds the character [d]. *)
Definition buffer_rep (b : EditorBuffer) (d : ascii) (l r clip : cstring)
    : Prop :=
  ∃ before cur after,
    buffer_cells b before cur after ∧
    (before ++ [cur]).*2 = d :: l ∧ after.*2 = r ∧ copyString b = clip.

(** The states a program can bring a buffer into: the constructor makes
    one, and every method that returns makes one from another. *)

Inductive method : Type :=
| MoveCursorForward
| MoveCursorForwardWord
| MoveCursorBackward
| MoveCursorBackwardWord
| MoveCursorToStart
| MoveCursorToEnd
| InsertCharacter (c : ascii)
| InsertString (str : cstring)
| Copy (nChars : Z)
| CopyWords (nWords : Z)
| Paste
| DeleteCharacter
| DeleteWord.

Definition call (fuel : nat) (m : method) (b : EditorBuffer)
    : result EditorBuffer :=
  match m with
  | MoveCursorForward => moveCursorForward b
  | MoveCursorForwardWord => moveCursorForwardWord fuel b
  | MoveCursorBackward => moveCursorBackward fuel b
  | MoveCursorBackwardWord => moveCursorBackwardWord fuel b
  | MoveCursorToStart => moveCursorToStart b
  | MoveCursorToEnd => moveCursorToEnd fuel b
  | InsertCharacter c => insertCharacter c b
  | InsertString str => insertString fuel str b
  | Copy nChars => copy fuel nChars b
  | CopyWords nWords => copyWords fuel nWords b
  | Paste => paste fuel b
  | DeleteCharacter => deleteCharacter b
  | DeleteWord => deleteWord fuel b
  end.

Inductive reachable : EditorBuffer → Prop :=
| reach_new junk : reachable (EditorBuffer_new junk)
| reach_call fuel m b b' :
    reachable b → call fuel m b = Done b' → reachable b'.

(** ** Words, as the scanning loops see them *)

(* the longest prefix of characters that satisfy [P], and what follows it *)
Fixpoint run (P : ascii → bool) (s : cstring) : cstring :=
  match s with
  | [] => []
  | c :: s' => if P c then c :: run P s' else []
  end.

Fixpoint skip (P : ascii → bool) (s : cstring) : cstring :=
  match s with
  | [] => []
  | c :: s' => if P c then skip P s' else s
  end.

Definition is_word_char (c : ascii) : bool := negb (is_delim c).

(** The word the scans stop after: the delimiters to the right of the
    cursor, then the characters up to the next delimiter. *)
Definition next_word (r : cstring) : cstring :=
  run is_delim r ++ run is_word_char (skip is_delim r).

Definition after_word (r : cstring) : cstring :=
  skip is_word_char (skip is_delim r).

(** What [copyWords] copies of the text [s] to the right of the cursor:
    for each of the [n] words, the delimiters before it and the word. *)
Fixpoint copy_words (n : nat) (s : cstring) : cstring :=
  match n with
  | O => []
  | S n' => next_word s ++ copy_words n' (after_word s)
  end.

(** A word with the delimiters before it, as a pair, and the text that a
    list of such pairs makes. *)
Definition word_block (p : cstring * cstring) : Prop :=
  p.1 ≠ [] ∧ forallb is_delim p.1 = true ∧
  p.2 ≠ [] ∧ forallb is_word_char p.2 = true.

Fixpoint words_text (blocks : list (cstring * cstring)) : cstring :=
  match blocks with
  | [] => []
  | p :: blocks' => p.1 ++ p.2 ++ words_text blocks'
  end.

(* some text, cursor and clipboard are represented *)
Definition well_formed (b : EditorBuffer) : Prop :=
  ∃ d l r clip, buffer_rep b d l r clip.

(** ** The invariant of the cursor, as the queries show it

    [getCursor()] and [getText()] return, and the cursor is an index in
    [[0, length]]. *)
Definition cursor_inv (b : EditorBuffer) : Prop :=
  ∃ n text,
    0 ≤ n ≤ Z.of_nat (length text) ∧
    ∀ fuel, (length text < fuel)%nat →
      getCursor fuel b = Done n ∧ getText fuel b = Done text.

(* the [int] that getCursor() counts in can hold every index of the text *)
Definition int_sized (text : cstring) : Prop :=
  Z.of_nat (length text) ≤ INT_MAX.

(* getText() returns [text] *)
Definition holds_text (b : EditorBuffer) (text : cstring) : Prop :=
  ∀ fuel, (length text < fuel)%nat → getText fuel b = Done text.

(* getCursor() returns an index of [text] *)
Definition cursor_valid (b : EditorBuffer) (text : cstring) : Prop :=
  ∃ n, 0 ≤ n ≤ Z.of_nat (length text) ∧
       ∀ fuel, (length text < fuel)%nat → getCursor fuel b = Done n.

(** ** Programs that use the class *)

(* insertCharacter(c1); insertCharacter(c2); ... *)
Fixpoint insertCharacters (cs : cstring) (b : EditorBuffer)
    : result EditorBuffer :=
  match cs with
  | [] => Done b
  | c :: cs' => do b' <- insertCharacter c b; insertCharacters cs' b'
  end.

(* EditorBuffer b; b.insertString(r); b.moveCursorToStart();
   b.insertString(l): the text [l ++ r] with the cursor after [l] *)
Definition example_program (l r : string) : result EditorBuffer :=
  let fuel := Datatypes.S (String.length l + String.length r) in
  do b1 <- insertString fuel (lit r) (EditorBuffer_new "000");
  do b2 <- moveCursorToStart b1;
  insertString fuel (lit l) b2.

Definition example_buffer (l r : string) : EditorBuffer :=
  match example_program l r with
  | Done b => b
  | _ => EditorBuffer_new "000"
  end.

(** ** The destructor

    [~EditorBuffer] walks the chain from [start] and deletes every cell,
    reading the link of a cell before the cell is deleted.  It returns the
    free store it leaves behind. *)
Definition EditorBuffer_delete (fuel : nat) (b : EditorBuffer)
    : result (gmap addr Cell) :=
  do '(_, h) <-
    while fuel
      (fun '(cp, _) => Done (bool_decide (cp ≠ None)))
      (fun '(cp, h) => do c <- deref h cp;
                       let next := link c in
                       do h' <- delete_Cell h cp;
                       Done (next, h'))
      (start b, heap b);
  Done h.

(** The free store holds the cells of the chain from [start] and no
    other cell. *)
Definition no_garbage (b : EditorBuffer) : Prop :=
  ∃ xs, lseg (heap b) (start b) xs None ∧ size (heap b) = length xs.

(** A buffer that holds a text and owns no cell outside its chain. *)
Definition sound (b : EditorBuffer) : Prop := well_formed b ∧ no_garbage b.

(** The methods that only move the cursor or fill the clipboard. *)
Definition read_only (m : method) : bool :=
  match m with
  | MoveCursorForward | MoveCursorForwardWord | MoveCursorBackward
  | MoveCursorBackwardWord | MoveCursorToStart | MoveCursorToEnd
  | Copy _ | CopyWords _ => true
  | _ => false
  end.

(** * Proofs *)

(** ** The result monad and the loops *)

Lemma bind_Done {A B} (m : result A) (k : A → result B) (y : B) :
  bind m k = Done y → ∃ x, m = Done x ∧ k x = Done y.
Proof. destruct m; simpl; intros; [eauto | done | done]. Qed.

(** ** Chains of cells *)

Lemma lseg_head h p xs q : lseg h p xs q → p = head_addr xs q.
Proof. destruct xs; simpl; [done | by intros [-> _]]. Qed.

Lemma lseg_app h p xs ys q :
  lseg h p (xs ++ ys) q ↔ ∃ m, lseg h p xs m ∧ lseg h m ys q.
Proof.
  revert p. induction xs as [|x xs IH]; intros p; simpl.
  - split; [eauto | by intros (m & -> & ?)].
  - split.
    + intros (-> & n & Hx & (m & ? & ?)%IH). eauto 10.
    + intros (m & (-> & n & Hx & ?) & ?). split; [done|].
      exists n. split; [done|]. apply IH. eauto.
Qed.

Lemma lseg_insert_ne h p xs q a c :
  a ∉ xs.*1 → lseg h p xs q → lseg (<[a := c]> h) p xs q.
Proof.
  revert p. induction xs as [|x xs IH]; intros p; simpl; [done|].
  rewrite not_elem_of_cons. intros [Hne Hnin] (-> & n & Hx & Hrest).
  split; [done|]. exists n. rewrite lookup_insert_ne by done. eauto.
Qed.

Lemma lseg_delete_ne h p xs q a :
  a ∉ xs.*1 → lseg h p xs q → lseg (delete a h) p xs q.
Proof.
  revert p. induction xs as [|x xs IH]; intros p; simpl; [done|].
  rewrite not_elem_of_cons. intros [Hne Hnin] (-> & n & Hx & Hrest).
  split; [done|]. exists n. rewrite lookup_delete_ne by done. eauto.
Qed.

Lemma lseg_live h p xs q a : lseg h p xs q → a ∈ xs.*1 → a ∈ dom h.
Proof.
  revert p. induction xs as [|x xs IH]; intros p; simpl.
  - intros _ Hin. by apply elem_of_nil in Hin.
  - intros (-> & n & Hx & Hrest) [->|Hin]%elem_of_cons.
    + by eapply elem_of_dom_2.
    + eauto.
Qed.

(* the cell in the middle of a chain, and the chains on both sides of it *)
Lemma lseg_split h p before cur after q :
  lseg h p (before ++ cur :: after) q →
  lseg h p before (Some cur.1) ∧
  h !! cur.1 = Some (mkCell cur.2 (head_addr after q)) ∧
  lseg h (head_addr after q) after q.
Proof.
  intros (m & Hb & -> & n & Hc & Ha)%lseg_app.
  by rewrite <- (lseg_head _ _ _ _ Ha).
Qed.

Lemma lseg_join h p before cur after q :
  lseg h p before (Some cur.1) →
  h !! cur.1 = Some (mkCell cur.2 (head_addr after q)) →
  lseg h (head_addr after q) after q →
  lseg h p (before ++ cur :: after) q.
Proof. intros Hb Hc Ha. apply lseg_app. exists (Some cur.1). simpl. eauto. Qed.

Lemma nodup_parts (before : cells) cur (after : cells) :
  NoDup (before ++ cur :: after).*1 ↔
  NoDup (before.*1) ∧ NoDup (after.*1) ∧
  (cur.1 ∉ before.*1) ∧ (cur.1 ∉ after.*1) ∧
  (∀ a, a ∈ before.*1 → a ∉ after.*1).
Proof.
  rewrite fmap_app, fmap_cons, NoDup_app, NoDup_cons.
  setoid_rewrite not_elem_of_cons. split.
  - intros (? & Hd & ? & ?). split_and!; try done.
    + intros Hin. by destruct (Hd _ Hin).
    + intros a Hin. by destruct (Hd _ Hin).
  - intros (? & ? & Hc & ? & Hd). split_and!; try done.
    intros a Hin. split; [by intros -> | by apply Hd].
Qed.

(** ** The methods on represented buffers: one step *)

Lemma new_Cell_fresh (h : gmap addr Cell) : h !! new_Cell h = None.
Proof. apply not_elem_of_dom. unfold new_Cell. apply is_fresh. Qed.

Lemma cursor_cell b before cur after :
  buffer_cells b before cur after →
  deref (heap b) (cursor b) = Done (mkCell cur.2 (head_addr after None)).
Proof.
  intros [-> (_ & Hc & _)%lseg_split _]. simpl. by rewrite Hc.
Qed.

Lemma start_addr b before cur after :
  buffer_cells b before cur after →
  start b = head_addr before (Some cur.1).
Proof. intros [_ Hch%lseg_head _]. rewrite Hch. by destruct before. Qed.

Lemma cells_forward_end b before cur :
  buffer_cells b before cur [] → moveCursorForward b = Done b.
Proof.
  intros Hcells. unfold moveCursorForward.
  by rewrite (cursor_cell _ _ _ _ Hcells).
Qed.

Lemma cells_forward b before cur x after :
  buffer_cells b before cur (x :: after) →
  moveCursorForward b = Done (with_cursor b (Some x.1)) ∧
  buffer_cells (with_cursor b (Some x.1)) (before ++ [cur]) x after.
Proof.
  intros Hcells. unfold moveCursorForward.
  rewrite (cursor_cell _ _ _ _ Hcells). simpl.
  split; [done|]. destruct Hcells as [Hcur Hch Hnd].
  split; simpl; by rewrite <- ?app_assoc.
Qed.

Lemma cells_insert c b before cur after :
  buffer_cells b before cur after →
  ∃ b' p, insertCharacter c b = Done b' ∧
          buffer_cells b' (before ++ [cur]) (p, c) after ∧
          copyString b' = copyString b.
Proof.
  intros Hcells. unfold insertCharacter.
  rewrite (cursor_cell _ _ _ _ Hcells). simpl.
  destruct Hcells as [Hcur Hch Hnd].
  set (p := new_Cell (heap b)).
  assert (Hp : p ∉ dom (heap b)) by apply not_elem_of_dom, new_Cell_fresh.
  assert (Hlive : ∀ a, a ∈ (before ++ cur :: after).*1 → a ≠ p).
  { intros a Ha%(lseg_live _ _ _ _ _ Hch) ->. done. }
  rewrite fmap_app, fmap_cons in Hlive.
  assert (Hpb : p ∉ before.*1).
  { intros Hin. apply (Hlive p); [|done]. apply elem_of_app. by left. }
  assert (Hpa : p ∉ after.*1).
  { intros Hin. apply (Hlive p); [|done].
    apply elem_of_app. right. by apply list_elem_of_further. }
  assert (Hpc : cur.1 ≠ p).
  { apply Hlive, elem_of_app. right. apply list_elem_of_here. }
  apply nodup_parts in Hnd as (Hnb & Hna & Hcb & Hca & Hba).
  apply lseg_split in Hch as (Hb & Hc & Ha).
  rewrite Hcur. simpl. rewrite lookup_insert_ne, Hc by done.
  simpl. eexists _, p. split; [done|]. split; [|done]. split; simpl.
  - done.
  - rewrite <- app_assoc. simpl.
    apply (lseg_join _ _ before cur ((p, c) :: after)); simpl.
    + by do 2 (apply lseg_insert_ne; [done|]).
    + by rewrite lookup_insert_eq.
    + split; [done|]. exists (head_addr after None).
      rewrite lookup_insert_ne by done.
      rewrite lookup_insert_eq. split; [done|].
      by do 2 (apply lseg_insert_ne; [done|]).
  - rewrite <- app_assoc. simpl. apply nodup_parts. simpl.
    rewrite NoDup_cons, !not_elem_of_cons.
    split_and!; try done.
    intros a Hin. rewrite not_elem_of_cons. split; [|by apply Hba].
    intros ->. done.
Qed.

Lemma cells_delete_end b before cur :
  buffer_cells b before cur [] → deleteCharacter b = Done b.
Proof.
  intros Hcells. unfold deleteCharacter.
  by rewrite (cursor_cell _ _ _ _ Hcells).
Qed.

Lemma cells_delete b before cur x after :
  buffer_cells b before cur (x :: after) →
  ∃ b', deleteCharacter b = Done b' ∧ buffer_cells b' before cur after ∧
        copyString b' = copyString b.
Proof.
  intros Hcells. unfold deleteCharacter.
  rewrite (cursor_cell _ _ _ _ Hcells). simpl.
  destruct Hcells as [Hcur Hch Hnd].
  apply nodup_parts in Hnd as (Hnb & Hna & Hcb & Hca & Hba).
  apply lseg_split in Hch as (Hb & Hc & Hx & n & Hxc & Ha). simpl in *.
  apply NoDup_cons in Hna as [Hxa Hna].
  apply not_elem_of_cons in Hca as [Hcx Hca].
  pose proof (lseg_head _ _ _ _ Ha) as ->.
  rewrite Hxc, Hcur. simpl. rewrite Hc. simpl.
  rewrite lookup_insert_ne, Hxc by done.
  eexists. split; [done|]. split; [|done]. split; simpl.
  - done.
  - apply lseg_join.
    + apply lseg_delete_ne; [|by apply lseg_insert_ne].
      intros Hin. apply (Hba _ Hin), list_elem_of_here.
    + rewrite lookup_delete_ne by done. by rewrite lookup_insert_eq.
    + apply lseg_delete_ne; [done|]. by apply lseg_insert_ne.
  - apply nodup_parts. split_and!; try done.
    intros a Hin Hin'. by apply (Hba _ Hin), list_elem_of_further.
Qed.

Lemma cells_to_start b before cur after :
  buffer_cells b before cur after →
  ∃ cur' after',
    buffer_cells (with_cursor b (start b)) [] cur' after' ∧
    cur' :: after' = before ++ cur :: after.
Proof.
  intros [Hcur Hch Hnd].
  destruct before as [|x before']; simpl in *.
  - exists cur, after. split; [|done]. split; simpl; try done.
    by destruct Hch as [-> _].
  - exists x, (before' ++ cur :: after). split; [|done].
    split; simpl; try done. by destruct Hch as [-> _].
Qed.

(** ** The loops that walk the chain *)

Lemma head_addr_in (xs : cells) y q a :
  head_addr (xs ++ [y]) q = Some a → a ∈ (xs ++ [y]).*1.
Proof. destruct xs; simpl; intros [= <-]; apply list_elem_of_here. Qed.

(* moveCursorBackward: the cell whose link is the cursor *)
Lemma find_previous h target fuel : ∀ xs p prev,
  lseg h p (xs ++ [prev]) (Some target) →
  target ∉ (xs ++ [prev]).*1 →
  (length xs < fuel)%nat →
  while fuel
    (λ cp, do c <- deref h cp; Done (bool_decide (link c ≠ Some target)))
    (λ cp, do c <- deref h cp; Done (link c)) p
  = Done (Some prev.1).
Proof.
  induction fuel as [|fuel IH]; intros xs p prev Hch Hnin Hfuel; [lia|].
  destruct xs as [|y xs]; simpl in Hch.
  - destruct Hch as (-> & n & Hprev & ->). simpl. rewrite Hprev. simpl.
    by rewrite bool_decide_false by (by intros []).
  - destruct Hch as (-> & n & Hy & Hch). simpl. rewrite Hy. simpl.
    pose proof (lseg_head _ _ _ _ Hch) as Hn.
    rewrite <- app_comm_cons, fmap_cons in Hnin.
    apply not_elem_of_cons in Hnin as [_ Hnin].
    rewrite bool_decide_true.
    + simpl. apply (IH xs); [done | done | simpl in Hfuel; lia].
    + rewrite Hn. by intros Heq%head_addr_in.
Qed.

Lemma cells_backward_start fuel b cur after :
  buffer_cells b [] cur after → moveCursorBackward fuel b = Done b.
Proof.
  intros Hcells. unfold moveCursorBackward.
  rewrite (start_addr _ _ _ _ Hcells). destruct Hcells as [-> _ _]. simpl.
  by rewrite bool_decide_false by (by intros []).
Qed.

Lemma cells_backward fuel b before prev cur after :
  buffer_cells b (before ++ [prev]) cur after →
  (length before < fuel)%nat →
  moveCursorBackward fuel b = Done (with_cursor b (Some prev.1)) ∧
  buffer_cells (with_cursor b (Some prev.1)) before prev (cur :: after).
Proof.
  intros Hcells Hfuel. unfold moveCursorBackward.
  pose proof (start_addr _ _ _ _ Hcells) as Hstart.
  destruct Hcells as [Hcur Hch Hnd].
  pose proof Hnd as (_ & _ & Hcb & _)%nodup_parts.
  rewrite bool_decide_true.
  - pose proof Hch as (Hb & _)%lseg_split. rewrite Hcur.
    rewrite (find_previous _ _ _ before _ prev); try done.
    rewrite <- app_assoc in Hch, Hnd. by repeat split.
  - rewrite Hcur, Hstart. by intros Heq%eq_sym%head_addr_in.
Qed.

(* getText: the characters of the cells up to NULL *)
Lemma collect_text h fuel : ∀ xs p acc,
  lseg h p xs None →
  (length xs < fuel)%nat →
  for_loop fuel
    (λ '(cp, _), bool_decide (cp ≠ None))
    (λ '(cp, str), do c <- deref h cp; Done (link c, str))
    (λ '(cp, str), do c <- deref h cp; Done (Next (cp, str ++ [ch c])))
    (p, acc)
  = Done (None, acc ++ xs.*2).
Proof.
  induction fuel as [|fuel IH]; intros xs p acc Hch Hfuel; [lia|].
  destruct xs as [|x xs]; simpl in Hch.
  - subst p. simpl. by rewrite app_nil_r.
  - destruct Hch as (-> & n & Hx & Hch). simpl.
    repeat (rewrite Hx; simpl).
    rewrite (IH xs) by (done || simpl in Hfuel; lia).
    by rewrite <- app_assoc.
Qed.

(* getCursor: the number of cells before the cursor *)
Lemma count_cells h target fuel : ∀ xs p n,
  lseg h p xs (Some target) →
  target ∉ xs.*1 →
  (length xs < fuel)%nat →
  for_loop fuel
    (λ '(cp, _), bool_decide (cp ≠ Some target))
    (λ '(cp, nChars), do c <- deref h cp; Done (link c, nChars))
    (λ '(cp, nChars), Done (Next (cp, nChars + 1)))
    (p, n)
  = Done (Some target, n + Z.of_nat (length xs)).
Proof.
  induction fuel as [|fuel IH]; intros xs p n Hch Hnin Hfuel; [lia|].
  destruct xs as [|x xs]; simpl in Hch.
  - subst p. simpl. rewrite bool_decide_false by naive_solver.
    f_equal. f_equal. lia.
  - destruct Hch as (-> & m & Hx & Hch). simpl.
    apply not_elem_of_cons in Hnin as [Hne Hnin].
    rewrite bool_decide_true by naive_solver. simpl. rewrite Hx. simpl.
    rewrite (IH xs) by (done || simpl in Hfuel; lia).
    f_equal. f_equal. lia.
Qed.

Lemma cells_getText_from_cursor fuel b before cur after :
  buffer_cells b before cur after →
  (length after < fuel)%nat →
  getText_from fuel (cursor b) b = Done after.*2.
Proof.
  intros Hcells Hfuel. unfold getText_from.
  rewrite (cursor_cell _ _ _ _ Hcells). simpl.
  destruct Hcells as [_ (_ & _ & Ha)%lseg_split _].
  by rewrite (collect_text _ _ after).
Qed.

Lemma cells_getText fuel b before cur after :
  buffer_cells b before cur after →
  (length (before ++ cur :: after) ≤ fuel)%nat →
  getText fuel b = Done (tail (before ++ cur :: after).*2).
Proof.
  intros [_ Hch _] Hfuel. unfold getText, getText_from.
  destruct (before ++ cur :: after) as [|x xs] eqn:E.
  { by destruct before. }
  destruct Hch as (-> & n & Hx & Hch). simpl. rewrite Hx. simpl.
  rewrite (collect_text _ _ xs) by (done || simpl in Hfuel; lia). done.
Qed.

Lemma cells_getCursor fuel b before cur after :
  buffer_cells b before cur after →
  (length before < fuel)%nat →
  getCursor fuel b = Done (Z.of_nat (length before)).
Proof.
  intros [Hcur Hch Hnd] Hfuel. unfold getCursor.
  apply nodup_parts in Hnd as (_ & _ & Hcb & _).
  apply lseg_split in Hch as (Hb & _). rewrite Hcur.
  by rewrite (count_cells _ _ _ before).
Qed.

(** ** Fuel: a loop that finished finishes the same with more fuel *)

Lemma while_more_fuel {S} cond body fuel : ∀ fuel' (s s' : S),
  while fuel cond body s = Done s' → (fuel ≤ fuel')%nat →
  while fuel' cond body s = Done s'.
Proof.
  induction fuel as [|fuel IH]; intros fuel' s s'; simpl; [done|].
  intros (c & Hc & Hrun)%bind_Done Hle.
  destruct fuel' as [|fuel']; [lia|]. simpl. rewrite Hc. simpl.
  destruct c; [|done].
  apply bind_Done in Hrun as (s1 & -> & Hrun). simpl.
  apply IH; [done | lia].
Qed.

Lemma for_loop_more_fuel {S} cond incr body fuel : ∀ fuel' (s s' : S),
  for_loop fuel cond incr body s = Done s' → (fuel ≤ fuel')%nat →
  for_loop fuel' cond incr body s = Done s'.
Proof.
  induction fuel as [|fuel IH]; intros fuel' s s'; simpl; [done|].
  intros Hrun Hle. destruct fuel' as [|fuel']; [lia|]. simpl.
  destruct (cond s); [|done].
  apply bind_Done in Hrun as (c & -> & Hrun). simpl.
  destruct c; [|done].
  apply bind_Done in Hrun as (s1 & -> & Hrun). simpl.
  apply IH; [done | lia].
Qed.

Lemma moveCursorBackward_more_fuel fuel fuel' b b' :
  moveCursorBackward fuel b = Done b' → (fuel ≤ fuel')%nat →
  moveCursorBackward fuel' b = Done b'.
Proof.
  unfold moveCursorBackward. case_bool_decide; [|done].
  intros (cp & Hrun & Hret)%bind_Done Hle.
  by rewrite (while_more_fuel _ _ _ _ _ _ Hrun Hle).
Qed.

(** ** Invariants of loops *)

Lemma while_preserves {S} (I : S → Prop) cond body :
  (∀ s s', I s → cond s = Done true → body s = Done s' → I s') →
  ∀ fuel s s', I s → while fuel cond body s = Done s' → I s'.
Proof.
  intros Hbody fuel. induction fuel as [|fuel IH]; intros s s' Hs; simpl.
  - done.
  - intros (c & Hc & Hrun)%bind_Done. destruct c.
    + apply bind_Done in Hrun as (s1 & Hb & Hrun). eauto.
    + by inversion Hrun; subst.
Qed.

Lemma for_loop_preserves {S} (I : S → Prop) cond incr body :
  (∀ s s', I s → cond s = true → body s = Done (Break s') → I s') →
  (∀ s s' s'', I s → cond s = true → body s = Done (Next s') →
               incr s' = Done s'' → I s'') →
  ∀ fuel s s', I s → for_loop fuel cond incr body s = Done s' → I s'.
Proof.
  intros Hbreak Hnext fuel.
  induction fuel as [|fuel IH]; intros s s' Hs; simpl; [done|].
  destruct (cond s) eqn:Hc.
  - intros ([s1|s1] & Hb & Hrun)%bind_Done.
    + apply bind_Done in Hrun as (s2 & Hi & Hrun). eauto.
    + inversion Hrun; subst. eauto.
  - by inversion 1; subst.
Qed.

(** ** The methods on represented buffers, in terms of the text *)

Lemma rep_new junk : buffer_rep (EditorBuffer_new junk) junk [] [] [].
Proof.
  exists [], (new_Cell ∅, junk), []. split_and!; try done.
  split; simpl; [done | | apply NoDup_singleton].
  split; [done|]. exists None. by rewrite lookup_singleton_eq.
Qed.

Lemma rep_lengths (before : cells) (cur : addr * ascii) (d : ascii)
    (l : cstring) :
  (before ++ [cur]).*2 = d :: l → length before = length l.
Proof.
  intros H%(f_equal length). rewrite length_fmap, length_app in H.
  simpl in H. lia.
Qed.

Lemma rep_forward b d l c r clip :
  buffer_rep b d l (c :: r) clip →
  ∃ b', moveCursorForward b = Done b' ∧ buffer_rep b' d (l ++ [c]) r clip.
Proof.
  intros (before & cur & [|x after] & Hcells & Hl & Hr & Hclip); [done|].
  destruct (cells_forward _ _ _ _ _ Hcells) as [Hrun Hcells'].
  inversion Hr; subst. eexists. split; [done|].
  exists (before ++ [cur]), x, after. split_and!; try done.
  by rewrite fmap_app, Hl.
Qed.

Lemma rep_forward_end b d l clip :
  buffer_rep b d l [] clip → moveCursorForward b = Done b.
Proof.
  intros (before & cur & [|x after] & Hcells & Hl & Hr & Hclip); [|done].
  by eapply cells_forward_end.
Qed.

Lemma rep_insert c b d l r clip :
  buffer_rep b d l r clip →
  ∃ b', insertCharacter c b = Done b' ∧ buffer_rep b' d (l ++ [c]) r clip.
Proof.
  intros (before & cur & after & Hcells & Hl & Hr & Hclip).
  destruct (cells_insert c _ _ _ _ Hcells) as (b' & p & Hrun & Hcells' & Hcp).
  exists b'. split; [done|].
  exists (before ++ [cur]), (p, c), after. split_and!; try done.
  - by rewrite fmap_app, Hl.
  - congruence.
Qed.

Lemma rep_delete b d l c r clip :
  buffer_rep b d l (c :: r) clip →
  ∃ b', deleteCharacter b = Done b' ∧ buffer_rep b' d l r clip.
Proof.
  intros (before & cur & [|x after] & Hcells & Hl & Hr & Hclip); [done|].
  destruct (cells_delete _ _ _ _ _ Hcells) as (b' & Hrun & Hcells' & Hcp).
  inversion Hr; subst. exists b'. split; [done|].
  by exists before, cur, after.
Qed.

Lemma rep_delete_end b d l clip :
  buffer_rep b d l [] clip → deleteCharacter b = Done b.
Proof.
  intros (before & cur & [|x after] & Hcells & Hl & Hr & Hclip); [|done].
  by eapply cells_delete_end.
Qed.

Lemma rep_backward fuel b d l c r clip :
  buffer_rep b d (l ++ [c]) r clip →
  (length l < fuel)%nat →
  ∃ b', moveCursorBackward fuel b = Done b' ∧ buffer_rep b' d l (c :: r) clip.
Proof.
  intros (before & cur & after & Hcells & Hl & Hr & Hclip) Hfuel.
  destruct before as [|prev before _] using rev_ind.
  { by destruct l. }
  rewrite fmap_app in Hl. simpl in Hl.
  change (d :: l ++ [c]) with ((d :: l) ++ [c]) in Hl.
  apply app_inj_tail in Hl as [Hl Hc].
  destruct (cells_backward fuel _ _ _ _ _ Hcells) as [Hrun Hcells'].
  { by rewrite (rep_lengths _ _ _ _ Hl). }
  eexists. split; [done|].
  exists before, prev, (cur :: after). split_and!; try done.
  by rewrite fmap_cons, Hc, Hr.
Qed.

Lemma rep_backward_start fuel b d r clip :
  buffer_rep b d [] r clip → moveCursorBackward fuel b = Done b.
Proof.
  intros (before & cur & after & Hcells & Hl & Hr & Hclip).
  destruct before as [|x before]; [by eapply cells_backward_start|].
  by destruct before.
Qed.

Lemma rep_to_start b d l r clip :
  buffer_rep b d l r clip →
  buffer_rep (with_cursor b (start b)) d [] (l ++ r) clip.
Proof.
  intros (before & cur & after & Hcells & Hl & Hr & Hclip).
  destruct (cells_to_start _ _ _ _ Hcells) as (cur' & after' & Hcells' & E).
  apply (f_equal (fmap snd)) in E.
  rewrite (cons_middle cur), app_assoc, fmap_app, Hl, Hr, fmap_cons in E.
  injection E as Hd Ha.
  exists [], cur', after'. split_and!; try done.
  simpl. by rewrite Hd.
Qed.

Lemma rep_getText fuel b d l r clip :
  buffer_rep b d l r clip →
  (length l + length r < fuel)%nat →
  getText fuel b = Done (l ++ r).
Proof.
  intros (before & cur & after & Hcells & Hl & Hr & Hclip) Hfuel.
  rewrite (cells_getText fuel _ _ _ _ Hcells).
  - by rewrite (cons_middle cur), app_assoc, fmap_app, Hl, Hr.
  - rewrite length_app. simpl.
    rewrite (rep_lengths _ _ _ _ Hl), <- Hr, length_fmap in *. lia.
Qed.

Lemma rep_getText_from_cursor fuel b d l r clip :
  buffer_rep b d l r clip →
  (length r < fuel)%nat →
  getText_from fuel (cursor b) b = Done r.
Proof.
  intros (before & cur & after & Hcells & Hl & Hr & Hclip) Hfuel.
  rewrite (cells_getText_from_cursor fuel _ _ _ _ Hcells); [by rewrite Hr|].
  by rewrite <- Hr, length_fmap in Hfuel.
Qed.

Lemma rep_getCursor fuel b d l r clip :
  buffer_rep b d l r clip →
  (length l < fuel)%nat →
  getCursor fuel b = Done (Z.of_nat (length l)).
Proof.
  intros (before & cur & after & Hcells & Hl & Hr & Hclip) Hfuel.
  rewrite <- (rep_lengths _ _ _ _ Hl) in *.
  by apply (cells_getCursor fuel _ _ cur after).
Qed.

Lemma rep_with_copyString b d l r clip s :
  buffer_rep b d l r clip → buffer_rep (with_copyString b s) d l r s.
Proof.
  intros (before & cur & after & [Hcur Hch Hnd] & Hl & Hr & Hclip).
  by exists before, cur, after.
Qed.

(* the character in the cell at the cursor: the one to the left of the
   cursor, or the dummy cell's at the start of the text *)
Lemma rep_cursor_ch b d l r clip :
  buffer_rep b d l r clip →
  ∃ c, deref (heap b) (cursor b) = Done c ∧ ch c = List.last l d ∧
       cursor b ≠ None.
Proof.
  intros (before & cur & after & Hcells & Hl & Hr & Hclip).
  rewrite (cursor_cell _ _ _ _ Hcells). eexists. split; [done|]. simpl.
  split; [|by destruct Hcells as [-> _ _]].
  rewrite fmap_app in Hl. simpl in Hl.
  change (d :: l) with ([d] ++ l) in Hl.
  destruct l as [|c l _] using rev_ind.
  - simpl in *. by destruct (before.*2) as [|? [|]]; inversion Hl.
  - rewrite app_assoc in Hl. apply app_inj_tail in Hl as [_ ->].
    by rewrite last_last.
Qed.

Lemma rep_right_is_delim b d l r clip :
  buffer_rep b d l r clip →
  right_is_delim b = Done (match r with [] => false | c :: _ => is_delim c end).
Proof.
  intros (before & cur & after & Hcells & Hl & Hr & Hclip).
  unfold right_is_delim. rewrite (cursor_cell _ _ _ _ Hcells). simpl.
  destruct after as [|x after]; subst r; simpl; [done|].
  destruct Hcells as [_ (_ & _ & _ & n & Hx & _)%lseg_split _].
  by rewrite Hx.
Qed.

Lemma is_word_char_spec c :
  bool_decide (c ≠ SPACE) && bool_decide (c ≠ NEWLINE) = is_word_char c.
Proof.
  unfold is_word_char, is_delim. by repeat case_bool_decide.
Qed.

Lemma rep_right_is_word b d l r clip :
  buffer_rep b d l r clip →
  right_is_word b =
    Done (match r with [] => false | c :: _ => is_word_char c end).
Proof.
  intros (before & cur & after & Hcells & Hl & Hr & Hclip).
  unfold right_is_word. rewrite (cursor_cell _ _ _ _ Hcells). simpl.
  destruct after as [|x after]; subst r; simpl; [done|].
  destruct Hcells as [_ (_ & _ & _ & n & Hx & _)%lseg_split _].
  rewrite Hx. simpl. by rewrite is_word_char_spec.
Qed.

(** ** The scanning loops *)

Lemma skip_length P s : (length (skip P s) ≤ length s)%nat.
Proof. induction s as [|c s IH]; simpl; [done|]. destruct (P c); simpl; lia. Qed.

Lemma run_skip P s : run P s ++ skip P s = s.
Proof. induction s as [|c s IH]; simpl; [done|]. destruct (P c); simpl; congruence. Qed.

Section Scan.
Context (P : ascii → bool) (cond : EditorBuffer → result bool).
Context (d : ascii) (clip : cstring).
Hypothesis cond_spec : ∀ b l r,
  buffer_rep b d l r clip →
  cond b = Done (match r with [] => false | c :: _ => P c end).

(* while (cond) moveCursorForward(); *)
Lemma scan_forward fuel : ∀ r b l,
  buffer_rep b d l r clip →
  (length r < fuel)%nat →
  ∃ b', while fuel cond moveCursorForward b = Done b' ∧
        buffer_rep b' d (l ++ run P r) (skip P r) clip.
Proof using cond_spec.
  induction fuel as [|fuel IH]; intros r b l Hrep Hfuel; [lia|].
  simpl. rewrite (cond_spec _ _ _ Hrep).
  destruct r as [|c r]; simpl.
  - exists b. by rewrite app_nil_r.
  - destruct (P c); [|exists b; by rewrite app_nil_r].
    destruct (rep_forward _ _ _ _ _ _ Hrep) as (b1 & -> & Hrep1). simpl.
    destruct (IH r b1 (l ++ [c]) Hrep1) as (b' & Hrun & Hrep');
      [simpl in Hfuel; lia|].
    exists b'. by rewrite <- app_assoc in Hrep'.
Qed.

(* while (cond) deleteCharacter(); *)
Lemma scan_delete fuel : ∀ r b l,
  buffer_rep b d l r clip →
  (length r < fuel)%nat →
  ∃ b', while fuel cond deleteCharacter b = Done b' ∧
        buffer_rep b' d l (skip P r) clip.
Proof using cond_spec.
  induction fuel as [|fuel IH]; intros r b l Hrep Hfuel; [lia|].
  simpl. rewrite (cond_spec _ _ _ Hrep).
  destruct r as [|c r]; simpl.
  - by exists b.
  - destruct (P c); [|by exists b].
    destruct (rep_delete _ _ _ _ _ _ Hrep) as (b1 & -> & Hrep1). simpl.
    apply IH; [done | simpl in Hfuel; lia].
Qed.
End Scan.

Lemma next_word_after r : next_word r ++ after_word r = r.
Proof.
  unfold next_word, after_word. by rewrite <- app_assoc, !run_skip.
Qed.

Lemma rep_moveCursorForwardWord fuel b d l r clip :
  buffer_rep b d l r clip →
  (length r < fuel)%nat →
  ∃ b', moveCursorForwardWord fuel b = Done b' ∧
        buffer_rep b' d (l ++ next_word r) (after_word r) clip.
Proof.
  intros Hrep Hfuel. unfold moveCursorForwardWord.
  destruct (scan_forward is_delim right_is_delim d clip
              (λ b l r, rep_right_is_delim b d l r clip) fuel r b l)
    as (b1 & -> & Hrep1); [done..|]. simpl.
  destruct (scan_forward is_word_char right_is_word d clip
              (λ b l r, rep_right_is_word b d l r clip) fuel _ b1 _ Hrep1)
    as (b2 & -> & Hrep2).
  { pose proof (skip_length is_delim r). lia. }
  exists b2. split; [done|]. unfold next_word, after_word.
  by rewrite app_assoc.
Qed.

Lemma rep_deleteWord fuel b d l r clip :
  buffer_rep b d l r clip →
  (length r < fuel)%nat →
  ∃ b', deleteWord fuel b = Done b' ∧ buffer_rep b' d l (after_word r) clip.
Proof.
  intros Hrep Hfuel. unfold deleteWord.
  destruct (scan_delete is_delim right_is_delim d clip
              (λ b l r, rep_right_is_delim b d l r clip) fuel r b l)
    as (b1 & -> & Hrep1); [done..|]. simpl.
  apply (scan_delete is_word_char right_is_word d clip
           (λ b l r, rep_right_is_word b d l r clip)); [done|].
  pose proof (skip_length is_delim r). lia.
Qed.

(** ** insertString and paste *)

Lemma char_at_middle (pre : cstring) c suf :
  char_at (pre ++ c :: suf) (Z.of_nat (length pre)) = Done c.
Proof.
  unfold char_at. rewrite length_app. simpl.
  rewrite Nat2Z.id, list_lookup_middle by done.
  rewrite (proj2 (Z.leb_le _ _)), (proj2 (Z.ltb_lt _ _)) by lia. done.
Qed.

Lemma insert_loop d r clip str fuel : ∀ suf pre b l,
  str = pre ++ suf →
  buffer_rep b d l r clip →
  (length suf < fuel)%nat →
  ∃ b',
    for_loop fuel
      (λ '(i, _), i <? Z.of_nat (length str))
      (λ '(i, b), Done (i + 1, b))
      (λ '(i, b), do c <- char_at str i;
                  do b' <- insertCharacter c b;
                  Done (Next (i, b')))
      (Z.of_nat (length pre), b)
    = Done (Z.of_nat (length str), b') ∧
    buffer_rep b' d (l ++ suf) r clip.
Proof.
  induction fuel as [|fuel IH]; intros suf pre b l Hstr Hrep Hfuel; [lia|].
  destruct suf as [|c suf]; simpl.
  - rewrite app_nil_r in *. subst pre. rewrite Z.ltb_irrefl. by exists b.
  - assert ((Z.of_nat (length pre) <? Z.of_nat (length str)) = true) as ->.
    { subst str. rewrite length_app. simpl. apply Z.ltb_lt. lia. }
    assert (char_at str (Z.of_nat (length pre)) = Done c) as ->.
    { subst str. apply char_at_middle. }
    simpl.
    destruct (rep_insert c _ _ _ _ _ Hrep) as (b1 & -> & Hrep1). simpl.
    destruct (IH suf (pre ++ [c]) b1 (l ++ [c])) as (b' & Hrun & Hrep').
    { by rewrite <- app_assoc. }
    { done. }
    { simpl in Hfuel. lia. }
    rewrite length_app, Nat2Z.inj_add in Hrun. simpl in Hrun.
    exists b'. split; [done|]. by rewrite <- app_assoc in Hrep'.
Qed.

Lemma rep_insertString fuel str b d l r clip :
  buffer_rep b d l r clip →
  (length str < fuel)%nat →
  ∃ b', insertString fuel str b = Done b' ∧ buffer_rep b' d (l ++ str) r clip.
Proof.
  intros Hrep Hfuel. unfold insertString.
  destruct (insert_loop d r clip str fuel str [] b l) as (b' & Hrun & Hrep');
    [done..|].
  change (Z.of_nat (length [])) with 0 in Hrun.
  rewrite Hrun. simpl. by exists b'.
Qed.


(** ** copy and copyWords *)

Lemma substr_prefix (str : cstring) (n : Z) :
  0 ≤ n →
  substr str 0 n = Done (take (Z.to_nat (Z.min n (Z.of_nat (length str)))) str).
Proof.
  intros Hn. unfold substr.
  rewrite (proj2 (Z.ltb_ge _ _)) by lia. by rewrite Z.sub_0_r.
Qed.

Lemma to_size_t_small n : 0 ≤ n ≤ SIZE_MAX → to_size_t n = n.
Proof. intros Hn. unfold to_size_t. apply Z.mod_small. lia. Qed.

Lemma to_size_t_negative n :
  - (SIZE_MAX + 1) ≤ n < 0 → to_size_t n = n + (SIZE_MAX + 1).
Proof.
  intros Hn. unfold to_size_t.
  rewrite <- (Z.mod_add n 1 (SIZE_MAX + 1)) by (unfold SIZE_MAX; lia).
  apply Z.mod_small. lia.
Qed.

Lemma rep_copy fuel nChars b d l r clip :
  buffer_rep b d l r clip →
  (length r < fuel)%nat →
  copy fuel nChars b =
    Done (with_copyString b
            (take (Z.to_nat (Z.min (to_size_t nChars) (Z.of_nat (length r))))
                  r)).
Proof.
  intros Hrep Hfuel. unfold copy.
  rewrite (rep_getText_from_cursor _ _ _ _ _ _ Hrep Hfuel). simpl.
  rewrite substr_prefix; [done|].
  unfold to_size_t. apply Z.mod_pos_bound. unfold SIZE_MAX. lia.
Qed.

Lemma copy_words_nil n : copy_words n [] = [].
Proof.
  induction n as [|n IH]; [done|]. cbn [copy_words].
  change (after_word []) with (@nil ascii). by rewrite IH.
Qed.

(* what is copied is the beginning of the text to the right of the cursor *)
Lemma copy_words_prefix n : ∀ s, ∃ t, s = copy_words n s ++ t.
Proof.
  induction n as [|n IH]; intros s; cbn [copy_words]; [by exists s|].
  destruct (IH (after_word s)) as [t Ht]. exists t.
  by rewrite <- app_assoc, <- Ht, next_word_after.
Qed.

Lemma copy_words_length n s : (length (copy_words n s) ≤ length s)%nat.
Proof.
  destruct (copy_words_prefix n s) as [t Ht].
  rewrite Ht at 2. rewrite length_app. lia.
Qed.

Lemma after_word_shorter c s :
  (length (after_word (c :: s)) < length (c :: s))%nat.
Proof.
  unfold after_word. simpl. destruct (is_delim c) eqn:E.
  - pose proof (skip_length is_word_char (skip is_delim s)).
    pose proof (skip_length is_delim s). simpl. lia.
  - simpl. unfold is_word_char at 1. rewrite E. simpl.
    pose proof (skip_length is_word_char s). lia.
Qed.

Section CopyWordsLoops.
Context (charString : cstring).

Lemma length_snoc_Z (pre : cstring) c :
  Z.of_nat (length pre) + 1 = Z.of_nat (length (pre ++ [c])).
Proof. rewrite length_app. simpl. lia. Qed.

(* the first [for]: past the delimiters *)
Lemma skip_delims_loop fuel : ∀ suf pre,
  charString = pre ++ suf →
  (length suf < fuel)%nat →
  for_loop fuel (λ i, i <? Z.of_nat (length charString))
    (λ i, Done (i + 1))
    (λ i, do c <- char_at charString i;
          if bool_decide (c = SPACE) || bool_decide (c = NEWLINE)
          then Done (Next i)
          else Done (Break i))
    (Z.of_nat (length pre))
  = Done (Z.of_nat (length (pre ++ run is_delim suf))).
Proof.
  induction fuel as [|fuel IH]; intros suf pre Hstr Hfuel; [lia|].
  destruct suf as [|c suf]; simpl.
  - rewrite app_nil_r in *. subst pre. by rewrite Z.ltb_irrefl.
  - rewrite (proj2 (Z.ltb_lt _ _))
      by (subst charString; rewrite length_app; simpl; lia).
    assert (char_at charString (Z.of_nat (length pre)) = Done c) as ->.
    { subst charString. apply char_at_middle. }
    simpl. fold (is_delim c). destruct (is_delim c); simpl.
    + rewrite (length_snoc_Z pre c), (IH suf (pre ++ [c]));
        [| by rewrite <- app_assoc | simpl in Hfuel; lia].
      by rewrite <- app_assoc.
    + by rewrite app_nil_r.
Qed.

(* the second [for]: up to the delimiter that ends the word *)
Lemma find_delim_loop fuel : ∀ suf pre (nWords : Z),
  charString = pre ++ suf →
  (length suf < fuel)%nat →
  for_loop fuel (λ '(_, i), i <? Z.of_nat (length charString))
    (λ '(nWords, i), Done (nWords, i + 1))
    (λ '(nWords, i),
       do c <- char_at charString i;
       if bool_decide (c = SPACE) || bool_decide (c = NEWLINE)
       then Done (Break (nWords - 1, i))
       else Done (Next (nWords, i)))
    (nWords, Z.of_nat (length pre))
  = Done (match skip is_word_char suf with
          | [] => nWords
          | _ => nWords - 1
          end,
          Z.of_nat (length (pre ++ run is_word_char suf))).
Proof.
  induction fuel as [|fuel IH]; intros suf pre nWords Hstr Hfuel; [lia|].
  destruct suf as [|c suf]; simpl.
  - rewrite app_nil_r in *. subst pre. by rewrite Z.ltb_irrefl.
  - rewrite (proj2 (Z.ltb_lt _ _))
      by (subst charString; rewrite length_app; simpl; lia).
    assert (char_at charString (Z.of_nat (length pre)) = Done c) as ->.
    { subst charString. apply char_at_middle. }
    simpl. fold (is_delim c). unfold is_word_char at 1 3.
    destruct (is_delim c); simpl.
    + by rewrite app_nil_r.
    + rewrite (length_snoc_Z pre c), (IH suf (pre ++ [c]));
        [| by rewrite <- app_assoc | simpl in Hfuel; lia].
      by rewrite <- app_assoc.
Qed.
End CopyWordsLoops.

Lemma after_word_nil_length (pre suf : cstring) :
  Z.of_nat (length (pre ++ next_word suf)) = Z.of_nat (length (pre ++ suf))
  ↔ after_word suf = [].
Proof.
  rewrite <- (next_word_after suf) at 2. rewrite !length_app.
  destruct (after_word suf); simpl; split; (done || lia).
Qed.

(* the [while] of copyWords, from the index [length pre] *)
Lemma copy_words_loop charString fuel fuel' : ∀ suf pre (nWords : Z),
  charString = pre ++ suf →
  (length charString < fuel)%nat →
  (length suf + 1 < fuel')%nat →
  ∃ nWords',
    while fuel'
      (λ '(nWords, _), Done (0 <? nWords))
      (λ '(nWords, i),
         do i1 <-
           for_loop fuel (λ i, i <? Z.of_nat (length charString))
             (λ i, Done (i + 1))
             (λ i, do c <- char_at charString i;
                   if bool_decide (c = SPACE) || bool_decide (c = NEWLINE)
                   then Done (Next i)
                   else Done (Break i))
             i;
         do '(nWords2, i2) <-
           for_loop fuel (λ '(_, i), i <? Z.of_nat (length charString))
             (λ '(nWords, i), Done (nWords, i + 1))
             (λ '(nWords, i),
                do c <- char_at charString i;
                if bool_decide (c = SPACE) || bool_decide (c = NEWLINE)
                then Done (Break (nWords - 1, i))
                else Done (Next (nWords, i)))
             (nWords, i1);
         if i2 =? Z.of_nat (length charString)
         then Done (0, i2) else Done (nWords2, i2))
      (nWords, Z.of_nat (length pre))
    = Done (nWords',
            Z.of_nat (length (pre ++ copy_words (Z.to_nat nWords) suf))).
Proof.
  induction fuel' as [|fuel' IH]; intros suf pre nWords Hstr Hfuel Hfuel';
    [lia|].
  cbn [while bind]. destruct (0 <? nWords) eqn:Hpos.
  - apply Z.ltb_lt in Hpos.
    replace (Z.to_nat nWords) with (S (Z.to_nat (nWords - 1))) by lia.
    cbn [copy_words].
    assert (Hsuf : (length suf ≤ length charString)%nat).
    { subst charString. rewrite length_app. lia. }
    rewrite (skip_delims_loop charString fuel suf pre) by (done || lia).
    cbn [bind].
    rewrite (find_delim_loop charString fuel (skip is_delim suf)
               (pre ++ run is_delim suf)).
    2: { by rewrite <- app_assoc, run_skip. }
    2: { pose proof (skip_length is_delim suf). lia. }
    cbn [bind]. rewrite <- app_assoc. fold (next_word suf).
    fold (after_word suf).
    destruct (Z.eqb_spec (Z.of_nat (length (pre ++ next_word suf)))
                (Z.of_nat (length charString))) as [Heq|Hne].
    + rewrite Hstr in Heq.
      apply after_word_nil_length in Heq. rewrite Heq, copy_words_nil.
      rewrite app_nil_r. destruct fuel' as [|fuel']; [lia|].
      by exists 0.
    + assert (Hrest : after_word suf ≠ []).
      { intros Hnil. apply Hne. rewrite Hstr.
        by apply after_word_nil_length. }
      destruct (after_word suf) as [|c rest] eqn:Hafter; [done|].
      destruct (IH (c :: rest) (pre ++ next_word suf) (nWords - 1))
        as (nWords' & Hrun).
      { by rewrite <- app_assoc, <- Hafter, next_word_after. }
      { done. }
      { destruct suf as [|c' suf]; [done|].
        pose proof (after_word_shorter c' suf) as Hlt.
        rewrite Hafter in Hlt. lia. }
      cbn [bind]. rewrite Hrun. exists nWords'. by rewrite <- app_assoc.
  - apply Z.ltb_ge in Hpos.
    replace (Z.to_nat nWords) with O by lia. exists nWords.
    by rewrite app_nil_r.
Qed.

Lemma rep_copyWords fuel nWords b d l r clip :
  buffer_rep b d l r clip →
  (length r + 1 < fuel)%nat →
  Z.of_nat (length r) ≤ SIZE_MAX →
  copyWords fuel nWords b =
    Done (with_copyString b (copy_words (Z.to_nat nWords) r)).
Proof.
  intros Hrep Hfuel Hsize. unfold copyWords.
  rewrite (rep_getText_from_cursor _ _ _ _ _ _ Hrep) by lia.
  cbn [bind].
  destruct (copy_words_loop r fuel fuel r [] nWords) as (nWords' & Hrun);
    [done | lia | lia |].
  change (Z.of_nat (length [])) with 0 in Hrun. cbv zeta.
  rewrite Hrun. cbn [bind app].
  pose proof (copy_words_length (Z.to_nat nWords) r) as Hlen.
  rewrite to_size_t_small, substr_prefix by lia. cbn [bind].
  rewrite Z.min_l, Nat2Z.id by lia.
  destruct (copy_words_prefix (Z.to_nat nWords) r) as [t Ht].
  rewrite Ht at 2. by rewrite take_app_length.
Qed.

(** ** Every method keeps the representation *)

Lemma forward_well_formed b b' :
  well_formed b → moveCursorForward b = Done b' → well_formed b'.
Proof.
  intros (d & l & [|c r] & clip & Hrep) Hrun.
  - rewrite (rep_forward_end _ _ _ _ Hrep) in Hrun.
    injection Hrun as <-. by exists d, l, [], clip.
  - destruct (rep_forward _ _ _ _ _ _ Hrep) as (b1 & Hrun1 & Hrep1).
    rewrite Hrun1 in Hrun. injection Hrun as <-.
    by exists d, (l ++ [c]), r, clip.
Qed.

Lemma delete_well_formed b b' :
  well_formed b → deleteCharacter b = Done b' → well_formed b'.
Proof.
  intros (d & l & [|c r] & clip & Hrep) Hrun.
  - rewrite (rep_delete_end _ _ _ _ Hrep) in Hrun.
    injection Hrun as <-. by exists d, l, [], clip.
  - destruct (rep_delete _ _ _ _ _ _ Hrep) as (b1 & Hrun1 & Hrep1).
    rewrite Hrun1 in Hrun. injection Hrun as <-.
    by exists d, l, r, clip.
Qed.

Lemma backward_well_formed fuel b b' :
  well_formed b → moveCursorBackward fuel b = Done b' → well_formed b'.
Proof.
  intros (d & l & r & clip & Hrep) Hrun.
  destruct l as [|c l _] using rev_ind.
  - rewrite (rep_backward_start _ _ _ _ _ Hrep) in Hrun.
    injection Hrun as <-. by exists d, [], r, clip.
  - destruct (rep_backward (fuel `max` S (length l)) _ _ _ _ _ _ Hrep)
      as (b1 & Hrun1 & Hrep1); [lia|].
    rewrite (moveCursorBackward_more_fuel _ _ _ _ Hrun) in Hrun1 by lia.
    injection Hrun1 as ->. by exists d, l, (c :: r), clip.
Qed.

Lemma insert_well_formed c b b' :
  well_formed b → insertCharacter c b = Done b' → well_formed b'.
Proof.
  intros (d & l & r & clip & Hrep) Hrun.
  destruct (rep_insert c _ _ _ _ _ Hrep) as (b1 & Hrun1 & Hrep1).
  rewrite Hrun1 in Hrun. injection Hrun as <-.
  by exists d, (l ++ [c]), r, clip.
Qed.

Lemma insertString_well_formed fuel str b b' :
  well_formed b → insertString fuel str b = Done b' → well_formed b'.
Proof.
  intros Hwf ([i b1] & Hrun & Hret)%bind_Done. injection Hret as <-.
  revert Hrun.
  apply (for_loop_preserves (λ s : Z * EditorBuffer, well_formed s.2));
    [| |done].
  - intros [i0 b0] s' _ _ (c & _ & (b2 & _ & Hb)%bind_Done)%bind_Done.
    done.
  - intros [i0 b0] [i1' b1'] s'' Hwf0 _
      (c & _ & (b2 & Hins & Hb)%bind_Done)%bind_Done Hincr.
    injection Hb as <- <-. injection Hincr as <-. simpl in *.
    by eapply insert_well_formed.
Qed.

Lemma to_end_well_formed fuel b b' :
  well_formed b → moveCursorToEnd fuel b = Done b' → well_formed b'.
Proof.
  intros Hwf. apply (while_preserves well_formed); [|done].
  clear. intros b b' Hwf (c & Hc & Hcond)%bind_Done
    (c' & Hc' & Hbody)%bind_Done.
  rewrite Hc in Hc'. injection Hc' as <-. injection Hbody as <-.
  injection Hcond as Hlink%bool_decide_eq_true.
  eapply forward_well_formed; [done|].
  unfold moveCursorForward. rewrite Hc. simpl.
  by rewrite bool_decide_true.
Qed.

Lemma with_copyString_well_formed b s :
  well_formed b → well_formed (with_copyString b s).
Proof.
  intros (d & l & r & clip & Hrep). exists d, l, r, s.
  by eapply rep_with_copyString.
Qed.

Lemma call_well_formed fuel m b b' :
  well_formed b → call fuel m b = Done b' → well_formed b'.
Proof.
  intros Hwf. destruct m; simpl.
  - by apply forward_well_formed.
  - intros (b1 & Hrun1 & Hrun2)%bind_Done.
    eapply (while_preserves well_formed); [| |exact Hrun2].
    + intros ????. by apply forward_well_formed.
    + eapply (while_preserves well_formed); [| |exact Hrun1]; [|done].
      intros ????. by apply forward_well_formed.
  - by apply backward_well_formed.
  - intros (b1 & Hrun1 & Hrun2)%bind_Done.
    eapply (while_preserves well_formed); [| |exact Hrun2].
    + intros ????. by apply backward_well_formed.
    + eapply (while_preserves well_formed); [| |exact Hrun1]; [|done].
      intros ????. by apply backward_well_formed.
  - intros [= <-]. destruct Hwf as (d & l & r & clip & Hrep).
    exists d, [], (l ++ r), clip. by apply rep_to_start.
  - by apply to_end_well_formed.
  - by apply insert_well_formed.
  - by apply insertString_well_formed.
  - intros (text & _ & (s & _ & [= <-])%bind_Done)%bind_Done.
    by apply with_copyString_well_formed.
  - intros (text & _ & ([n i] & _ & (s & _ & [= <-])%bind_Done)%bind_Done)
      %bind_Done.
    by apply with_copyString_well_formed.
  - by apply insertString_well_formed.
  - by apply delete_well_formed.
  - intros (b1 & Hrun1 & Hrun2)%bind_Done.
    eapply (while_preserves well_formed); [| |exact Hrun2].
    + intros ????. by apply delete_well_formed.
    + eapply (while_preserves well_formed); [| |exact Hrun1]; [|done].
      intros ????. by apply delete_well_formed.
Qed.

Lemma reachable_well_formed b : reachable b → well_formed b.
Proof.
  induction 1 as [junk | fuel m b b' _ IH Hcall].
  - exists junk, [], [], []. apply rep_new.
  - by eapply call_well_formed.
Qed.

(** ** Example buffers *)

Lemma lit_length s : length (lit s) = String.length s.
Proof. induction s as [|c s IH]; simpl; [done | by rewrite IH]. Qed.

Lemma example_buffer_rep l r :
  buffer_rep (example_buffer l r) "000" (lit l) (lit r) [].
Proof.
  unfold example_buffer, example_program.
  destruct (rep_insertString (S (String.length l + String.length r)) (lit r)
              _ _ _ _ _ (rep_new "000")) as (b1 & -> & Hrep1).
  { rewrite lit_length. lia. }
  cbn [bind moveCursorToStart]. apply rep_to_start in Hrep1.
  rewrite app_nil_r in Hrep1.
  destruct (rep_insertString (S (String.length l + String.length r)) (lit l)
              _ _ _ _ _ Hrep1) as (b2 & -> & Hrep2).
  { rewrite lit_length. lia. }
  exact Hrep2.
Qed.

Lemma example_buffer_reachable l r : reachable (example_buffer l r).
Proof.
  unfold example_buffer.
  destruct (example_program l r) as [b| |] eqn:Hrun; try apply reach_new.
  unfold example_program in Hrun.
  apply bind_Done in Hrun as (b1 & Hrun1 & Hrun).
  apply bind_Done in Hrun as (b2 & Hrun2 & Hrun3).
  eapply (reach_call _ (InsertString _)); [|exact Hrun3].
  eapply (reach_call 0 MoveCursorToStart); [|exact Hrun2].
  eapply (reach_call _ (InsertString _)); [|exact Hrun1].
  apply reach_new.
Qed.

(** ** From what the queries return to the representation *)

Lemma lseg_prefix h : ∀ ys p zs q,
  lseg h p zs None → lseg h p ys q → (length ys ≤ length zs)%nat →
  zs = ys ++ drop (length ys) zs ∧ lseg h q (drop (length ys) zs) None.
Proof.
  induction ys as [|y ys IH]; intros p zs q Hzs Hys Hlen; simpl in *.
  - subst q. by rewrite drop_0.
  - destruct Hys as (-> & n & Hy & Hys).
    destruct zs as [|z zs]; simpl in *; [lia|].
    destruct Hzs as ([= Hz] & n' & Hzc & Hzs).
    rewrite <- Hz, Hy in Hzc. injection Hzc as Hch <-.
    destruct (IH _ _ _ Hzs Hys) as [E Hrest]; [lia|].
    split; [|done]. rewrite <- E. f_equal.
    destruct y, z; simpl in *; congruence.
Qed.

Lemma lseg_unique h p xs ys :
  lseg h p xs None → lseg h p ys None → xs = ys.
Proof.
  intros Hxs Hys.
  destruct (decide (length ys ≤ length xs)%nat) as [Hle|Hgt].
  - destruct (lseg_prefix h ys p xs None Hxs Hys Hle) as [E Hrest].
    destruct (drop (length ys) xs);
      [by rewrite app_nil_r in E | by destruct Hrest].
  - destruct (lseg_prefix h xs p ys None Hys Hxs) as [E Hrest]; [lia|].
    destruct (drop (length xs) ys);
      [by rewrite app_nil_r in E | by destruct Hrest].
Qed.

(* a chain that ends in NULL meets no cell twice *)
Lemma lseg_NoDup h : ∀ xs p, lseg h p xs None → NoDup xs.*1.
Proof.
  induction xs as [|x xs IH]; intros p Hch; [constructor|].
  pose proof Hch as (-> & n & Hx & Hxs). rewrite fmap_cons.
  apply NoDup_cons. split; [|by eapply IH].
  intros (x' & Hx' & (us & vs & ->)%list_elem_of_split)%list_elem_of_fmap.
  apply lseg_app in Hxs as (m & _ & Hvs).
  pose proof Hvs as (-> & _). rewrite <- Hx' in Hvs.
  pose proof (lseg_unique _ _ _ _ Hch Hvs) as E.
  apply (f_equal length) in E. simpl in E. rewrite length_app in E.
  simpl in E. lia.
Qed.

Lemma collect_text_inv h : ∀ fuel p acc q str,
  for_loop fuel
    (λ '(cp, _), bool_decide (cp ≠ None))
    (λ '(cp, str), do c <- deref h cp; Done (link c, str))
    (λ '(cp, str), do c <- deref h cp; Done (Next (cp, str ++ [ch c])))
    (p, acc)
  = Done (q, str) →
  ∃ xs, lseg h p xs None ∧ str = acc ++ xs.*2.
Proof.
  induction fuel as [|fuel IH]; intros p acc q str; [done|].
  cbn [for_loop]. case_bool_decide as Hp.
  - destruct p as [a|]; [|done]. unfold deref at 1.
    destruct (h !! a) as [c|] eqn:Ha; [|done]. cbn [bind].
    unfold deref at 1. rewrite Ha. cbn [bind].
    intros (xs & Hxs & ->)%IH. exists ((a, ch c) :: xs). split.
    + simpl. split; [done|]. exists (link c). by destruct c.
    + by rewrite <- app_assoc.
  - intros [= <- <-]. exists []. split; [|by rewrite app_nil_r].
    simpl. by destruct (decide (p = None)).
Qed.

Lemma count_cells_inv h target : ∀ fuel p n q m,
  for_loop fuel
    (λ '(cp, _), bool_decide (cp ≠ target))
    (λ '(cp, nChars), do c <- deref h cp; Done (link c, nChars))
    (λ '(cp, nChars), Done (Next (cp, nChars + 1)))
    (p, n)
  = Done (q, m) →
  ∃ xs, lseg h p xs target ∧ m = n + Z.of_nat (length xs).
Proof.
  induction fuel as [|fuel IH]; intros p n q m; [done|].
  cbn [for_loop]. case_bool_decide as Hp.
  - cbn [bind]. destruct p as [a|]; [|done]. unfold deref.
    destruct (h !! a) as [c|] eqn:Ha; [|done]. cbn [bind].
    intros (xs & Hxs & ->)%IH. exists ((a, ch c) :: xs). split.
    + simpl. split; [done|]. exists (link c). by destruct c.
    + simpl. lia.
  - intros [= <- <-]. exists []. split; [|simpl; lia].
    simpl. by destruct (decide (p = target)).
Qed.

(** A state in which [getText()] and [getCursor()] return, the cursor
    within the text, is represented. *)
Lemma queries_rep fuel b text n :
  getText fuel b = Done text →
  getCursor fuel b = Done n →
  0 ≤ n ≤ Z.of_nat (length text) →
  ∃ d, buffer_rep b d (take (Z.to_nat n) text) (drop (Z.to_nat n) text)
         (copyString b).
Proof.
  unfold getText, getText_from, getCursor. intros Htext Hcur Hn.
  apply bind_Done in Htext as (first & Hfirst & Htext).
  apply bind_Done in Htext as ([q str] & Hloop & [= ->]).
  apply collect_text_inv in Hloop as (xs & Hxs & ->).
  apply bind_Done in Hcur as ([q' m] & Hloop & [= ->]).
  apply count_cells_inv in Hloop as (ys & Hys & ->).
  unfold deref in Hfirst. destruct (start b) as [s|] eqn:Hs; [|done].
  destruct (heap b !! s) as [c|] eqn:Hc; [|done].
  injection Hfirst as <-.
  assert (Hall : lseg (heap b) (Some s) ((s, ch c) :: xs) None).
  { simpl. split; [done|]. exists (link c). by destruct c. }
  rewrite app_nil_l, length_fmap in Hn. simpl in Hn.
  destruct (lseg_prefix _ _ _ _ _ Hall Hys) as [E Hrest]; [simpl; lia|].
  destruct (drop (length ys) ((s, ch c) :: xs)) as [|cur after] eqn:Hdrop.
  { apply (f_equal length) in Hdrop. rewrite length_drop in Hdrop.
    simpl in Hdrop. lia. }
  pose proof Hrest as (Hq & _).
  assert (Hcells : buffer_cells b ys cur after).
  { split; [done | by rewrite Hs, <- E |].
    rewrite <- E. by eapply lseg_NoDup. }
  rewrite Z.add_0_l, Nat2Z.id, app_nil_l.
  exists (ch c), ys, cur, after. split_and!; try done.
  - destruct ys as [|y ys]; simpl in E; injection E as <- ->; [done|].
    rewrite <- app_comm_cons, fmap_cons. cbn [snd]. f_equal.
    replace (ys ++ cur :: after) with ((ys ++ [cur]) ++ after)
      by (by rewrite <- app_assoc).
    rewrite (fmap_app _ (ys ++ [cur]) after).
    rewrite take_app_length'; [done|].
    rewrite length_fmap, length_app. simpl. lia.
  - destruct ys as [|y ys]; simpl in E; injection E as <- ->; [done|].
    replace (ys ++ cur :: after) with ((ys ++ [cur]) ++ after)
      by (by rewrite <- app_assoc).
    rewrite (fmap_app _ (ys ++ [cur]) after).
    rewrite drop_app_length'; [done|].
    rewrite length_fmap, length_app. simpl. lia.
Qed.

Lemma cursor_inv_well_formed b : cursor_inv b → well_formed b.
Proof.
  intros (n & text & Hn & Hq).
  destruct (Hq (S (length text))) as [Hcur Htext]; [lia|].
  destruct (queries_rep _ _ _ _ Htext Hcur Hn) as (d & Hrep).
  by eexists _, _, _, _.
Qed.

Lemma well_formed_cursor_inv b : well_formed b → cursor_inv b.
Proof.
  intros (d & l & r & clip & Hrep).
  exists (Z.of_nat (length l)), (l ++ r). rewrite length_app. split; [lia|].
  intros fuel Hfuel. split.
  - rewrite (rep_getCursor fuel _ _ _ _ _ Hrep); [done | lia].
  - rewrite (rep_getText fuel _ _ _ _ _ Hrep); [done | lia].
Qed.

(** * The claims *)

Lemma insertCharacters_rep cs : ∀ b d l r clip,
  buffer_rep b d l r clip →
  ∃ b', insertCharacters cs b = Done b' ∧ buffer_rep b' d (l ++ cs) r clip.
Proof.
  induction cs as [|c cs IH]; intros b d l r clip Hrep; simpl.
  - exists b. by rewrite app_nil_r.
  - destruct (rep_insert c _ _ _ _ _ Hrep) as (b1 & -> & Hrep1). simpl.
    destruct (IH _ _ _ _ _ Hrep1) as (b' & Hrun & Hrep').
    exists b'. by rewrite <- app_assoc in Hrep'.
Qed.

(** C3: after any finite sequence of [insertCharacter] calls on a newly
    constructed buffer, [getText()] is the inserted characters in call
    order and [getCursor()] is their number, a number that the [int] that
    [getCursor()] returns can hold. *)
Theorem insertCharacter_sequence (junk : ascii) (cs : cstring) (fuel : nat) :
  Z.of_nat (length cs) ≤ INT_MAX →
  (length cs < fuel)%nat →
  ∃ b, insertCharacters cs (EditorBuffer_new junk) = Done b ∧
       getText fuel b = Done cs ∧
       getCursor fuel b = Done (Z.of_nat (length cs)).
Proof.
  intros _ Hfuel.
  destruct (insertCharacters_rep cs _ _ _ _ _ (rep_new junk))
    as (b & Hrun & Hrep).
  exists b. split_and!; [done | |].
  - rewrite (rep_getText fuel _ _ _ _ _ Hrep); [by rewrite app_nil_r|].
    simpl. lia.
  - by rewrite (rep_getCursor fuel _ _ _ _ _ Hrep).
Qed.

Lemma insertCharacter_sequence_witness :
  Z.of_nat (length (lit "hello")) ≤ INT_MAX ∧
  (length (lit "hello") < 6)%nat ∧
  ∃ b, insertCharacters (lit "hello") (EditorBuffer_new "000") = Done b ∧
       getText 6 b = Done (lit "hello") ∧
       getCursor 6 b = Done (Z.of_nat (length (lit "hello"))).
Proof.
  assert (Hsize : Z.of_nat (length (lit "hello")) ≤ INT_MAX)
    by (unfold INT_MAX; simpl; lia).
  split; [exact Hsize|]. split; [simpl; lia|].
  apply (insertCharacter_sequence "000" (lit "hello") 6 Hsize). simpl. lia.
Defined.

(** C4: [insertCharacter(c); moveCursorBackward(); deleteCharacter()]
    restores the text the buffer held before the insertion (and the cursor
    and the clipboard with it). *)
Theorem insert_backward_delete (b : EditorBuffer) (d : ascii)
    (l r clip : cstring) (c : ascii) (fuel : nat) :
  buffer_rep b d l r clip →
  (length l + length r < fuel)%nat →
  ∃ b1 b2 b3,
    insertCharacter c b = Done b1 ∧
    moveCursorBackward fuel b1 = Done b2 ∧
    deleteCharacter b2 = Done b3 ∧
    getText fuel b3 = getText fuel b ∧
    getText fuel b = Done (l ++ r) ∧
    buffer_rep b3 d l r clip.
Proof.
  intros Hrep Hfuel.
  destruct (rep_insert c _ _ _ _ _ Hrep) as (b1 & Hrun1 & Hrep1).
  destruct (rep_backward fuel _ _ _ _ _ _ Hrep1) as (b2 & Hrun2 & Hrep2);
    [lia|].
  destruct (rep_delete _ _ _ _ _ _ Hrep2) as (b3 & Hrun3 & Hrep3).
  exists b1, b2, b3. split_and!; try done.
  - by rewrite (rep_getText fuel _ _ _ _ _ Hrep),
      (rep_getText fuel _ _ _ _ _ Hrep3).
  - by rewrite (rep_getText fuel _ _ _ _ _ Hrep).
Qed.

Lemma insert_backward_delete_witness :
  buffer_rep (example_buffer "ab" "cd") "000" (lit "ab") (lit "cd") [] ∧
  ∃ b1 b2 b3,
    insertCharacter "x" (example_buffer "ab" "cd") = Done b1 ∧
    moveCursorBackward 5 b1 = Done b2 ∧
    deleteCharacter b2 = Done b3 ∧
    getText 5 b3 = getText 5 (example_buffer "ab" "cd") ∧
    getText 5 (example_buffer "ab" "cd") = Done (lit "ab" ++ lit "cd") ∧
    buffer_rep b3 "000" (lit "ab") (lit "cd") [].
Proof.
  split; [apply example_buffer_rep|].
  apply (insert_backward_delete _ _ _ _ _ "x" 5 (example_buffer_rep "ab" "cd")).
  simpl. lia.
Defined.

(** C5: the constructor makes a buffer with cursor 0 and no text; every
    method that is called on a text of at most [INT_MAX] characters with
    [0 <= getCursor() <= length(getText())] and that returns leaves a
    state in which [getText()] returns and, when the text still has at
    most [INT_MAX] characters, [getCursor()] returns with
    [0 <= getCursor() <= length(getText())]; and so it is in every state
    that the methods bring a buffer into. *)
Theorem cursor_in_range :
  (∀ junk fuel, (0 < fuel)%nat →
     getCursor fuel (EditorBuffer_new junk) = Done 0 ∧
     getText fuel (EditorBuffer_new junk) = Done []) ∧
  (∀ fuel m b b' text,
     holds_text b text → int_sized text → cursor_valid b text →
     call fuel m b = Done b' →
     ∃ text', holds_text b' text' ∧ (int_sized text' → cursor_valid b' text')) ∧
  (∀ b, reachable b →
     ∃ text, holds_text b text ∧ (int_sized text → cursor_valid b text)).
Proof.
  assert (Hinv : ∀ b, well_formed b →
            ∃ text, holds_text b text ∧ (int_sized text → cursor_valid b text)).
  { intros b Hwf.
    destruct (well_formed_cursor_inv b Hwf) as (n & text & Hn & Hq).
    exists text. split.
    - intros fuel Hfuel. by apply Hq.
    - intros _. exists n. split; [done|]. intros fuel Hfuel. by apply Hq. }
  split_and!.
  - intros junk fuel Hfuel. pose proof (rep_new junk) as Hrep. split.
    + by rewrite (rep_getCursor fuel _ _ _ _ _ Hrep).
    + rewrite (rep_getText fuel _ _ _ _ _ Hrep); [done | simpl; lia].
  - intros fuel m b b' text Htext _ (n & Hn & Hcur) Hcall.
    apply Hinv, (call_well_formed fuel m b); [|done].
    apply cursor_inv_well_formed. exists n, text. split; [done|].
    intros fuel' Hfuel. split; [by apply Hcur | by apply Htext].
  - intros b Hwf%reachable_well_formed. by apply Hinv.
Qed.

Lemma cursor_in_range_witness :
  holds_text (example_buffer "ab" "cd") (lit "abcd") ∧
  int_sized (lit "abcd") ∧
  cursor_valid (example_buffer "ab" "cd") (lit "abcd") ∧
  call 5 (InsertCharacter "x") (example_buffer "ab" "cd")
  = Done (example_buffer "abx" "cd") ∧
  ∃ text', holds_text (example_buffer "abx" "cd") text' ∧
           (int_sized text' → cursor_valid (example_buffer "abx" "cd") text').
Proof.
  pose proof (example_buffer_rep "ab" "cd") as Hrep.
  assert (Htext : holds_text (example_buffer "ab" "cd") (lit "abcd")).
  { intros fuel Hfuel. apply (rep_getText fuel _ _ _ _ _ Hrep).
    simpl in *. lia. }
  assert (Hsize : int_sized (lit "abcd"))
    by (unfold int_sized, INT_MAX; simpl; lia).
  assert (Hcur : cursor_valid (example_buffer "ab" "cd") (lit "abcd")).
  { exists 2. split; [simpl; lia|]. intros fuel Hfuel.
    apply (rep_getCursor fuel _ _ _ _ _ Hrep). simpl in *. lia. }
  assert (Hcall : call 5 (InsertCharacter "x") (example_buffer "ab" "cd")
                  = Done (example_buffer "abx" "cd"))
    by (vm_compute; reflexivity).
  split_and!; try done.
  exact (proj1 (proj2 cursor_in_range) _ _ _ _ _ Htext Hsize Hcur Hcall).
Defined.

(** C6: for [0 <= nChars], [copy(nChars)] returns without an error, sets
    the clipboard to the first [min(nChars, length r)] characters of the
    text [r] to the right of the cursor, and changes neither the text nor
    the cursor. *)
Theorem copy_clamps (b : EditorBuffer) (d : ascii) (l r clip : cstring)
    (nChars : Z) (fuel : nat) :
  buffer_rep b d l r clip →
  0 ≤ nChars ≤ INT_MAX →
  (length l + length r < fuel)%nat →
  ∃ b',
    copy fuel nChars b = Done b' ∧
    copyString b' = take (Z.to_nat nChars `min` length r) r ∧
    getText fuel b' = getText fuel b ∧
    getCursor fuel b' = getCursor fuel b ∧
    getText fuel b = Done (l ++ r) ∧
    getCursor fuel b = Done (Z.of_nat (length l)).
Proof.
  intros Hrep Hn Hfuel. eexists. split.
  { apply (rep_copy _ _ _ _ _ _ _ Hrep). lia. }
  rewrite to_size_t_small by (unfold INT_MAX, SIZE_MAX in *; lia).
  split_and!; try done.
  - simpl. f_equal. lia.
  - apply (rep_getText fuel _ _ _ _ _ Hrep). lia.
  - apply (rep_getCursor fuel _ _ _ _ _ Hrep). lia.
Qed.

Lemma copy_clamps_witness :
  buffer_rep (example_buffer "ab" "cd") "000" (lit "ab") (lit "cd") [] ∧
  0 ≤ 5 ≤ INT_MAX ∧
  ∃ b',
    copy 5 5 (example_buffer "ab" "cd") = Done b' ∧
    copyString b' = take (Z.to_nat 5 `min` length (lit "cd")) (lit "cd") ∧
    getText 5 b' = getText 5 (example_buffer "ab" "cd") ∧
    getCursor 5 b' = getCursor 5 (example_buffer "ab" "cd") ∧
    getText 5 (example_buffer "ab" "cd") = Done (lit "ab" ++ lit "cd") ∧
    getCursor 5 (example_buffer "ab" "cd") = Done (Z.of_nat (length (lit "ab"))).
Proof.
  assert (Hn : 0 ≤ 5 ≤ INT_MAX) by (unfold INT_MAX; lia).
  split; [apply example_buffer_rep|]. split; [exact Hn|].
  apply (copy_clamps _ _ _ _ _ 5 5 (example_buffer_rep "ab" "cd") Hn).
  simpl. lia.
Defined.



(** C8: with the text "hello world" and the cursor at 0,
    [moveCursorForwardWord()] leaves the cursor at 5, and a second call
    leaves it at 11. *)
Theorem forward_word_hello_world (b : EditorBuffer) (d : ascii)
    (clip : cstring) (fuel : nat) :
  buffer_rep b d [] (lit "hello world") clip →
  (11 < fuel)%nat →
  ∃ b1 b2,
    getCursor fuel b = Done 0 ∧
    moveCursorForwardWord fuel b = Done b1 ∧
    getCursor fuel b1 = Done 5 ∧
    moveCursorForwardWord fuel b1 = Done b2 ∧
    getCursor fuel b2 = Done 11 ∧
    getText fuel b2 = Done (lit "hello world").
Proof.
  intros Hrep Hfuel.
  destruct (rep_moveCursorForwardWord fuel _ _ _ _ _ Hrep)
    as (b1 & Hrun1 & Hrep1); [simpl; lia|].
  change (next_word (lit "hello world")) with (lit "hello") in Hrep1.
  change (after_word (lit "hello world")) with (lit " world") in Hrep1.
  destruct (rep_moveCursorForwardWord fuel _ _ _ _ _ Hrep1)
    as (b2 & Hrun2 & Hrep2); [simpl; lia|].
  change (next_word (lit " world")) with (lit " world") in Hrep2.
  change (after_word (lit " world")) with (@nil ascii) in Hrep2.
  exists b1, b2. split_and!; try done.
  - rewrite (rep_getCursor fuel _ _ _ _ _ Hrep); [done | simpl; lia].
  - rewrite (rep_getCursor fuel _ _ _ _ _ Hrep1); [done | simpl; lia].
  - rewrite (rep_getCursor fuel _ _ _ _ _ Hrep2); [done | simpl; lia].
  - rewrite (rep_getText fuel _ _ _ _ _ Hrep2); [done | simpl; lia].
Qed.

Lemma forward_word_hello_world_witness :
  buffer_rep (example_buffer "" "hello world") "000" []
    (lit "hello world") [] ∧
  ∃ b1 b2,
    getCursor 12 (example_buffer "" "hello world") = Done 0 ∧
    moveCursorForwardWord 12 (example_buffer "" "hello world") = Done b1 ∧
    getCursor 12 b1 = Done 5 ∧
    moveCursorForwardWord 12 b1 = Done b2 ∧
    getCursor 12 b2 = Done 11 ∧
    getText 12 b2 = Done (lit "hello world").
Proof.
  split; [apply (example_buffer_rep "" "hello world")|].
  apply (forward_word_hello_world _ _ _ 12
           (example_buffer_rep "" "hello world")).
  lia.
Defined.

(** C9: with the text "foo bar" and the cursor at 0, [deleteWord()] leaves
    the text " bar" and the cursor at 0; each [deleteCharacter()] on the
    way removes the character to the right of the cursor and leaves the
    cursor's index as it is. *)
Theorem delete_word_foo_bar (b : EditorBuffer) (d : ascii) (clip : cstring)
    (fuel : nat) :
  buffer_rep b d [] (lit "foo bar") clip →
  (7 < fuel)%nat →
  (∃ b',
     deleteWord fuel b = Done b' ∧
     getText fuel b' = Done (lit " bar") ∧
     getCursor fuel b' = Done 0) ∧
  (∀ b1 l1 r1,
     buffer_rep b1 d l1 r1 clip →
     ∃ b2, deleteCharacter b1 = Done b2 ∧ buffer_rep b2 d l1 (tail r1) clip).
Proof.
  intros Hrep Hfuel. split.
  - destruct (rep_deleteWord fuel _ _ _ _ _ Hrep) as (b' & Hrun & Hrep');
      [simpl; lia|].
    change (after_word (lit "foo bar")) with (lit " bar") in Hrep'.
    exists b'. split_and!; [done | |].
    + rewrite (rep_getText fuel _ _ _ _ _ Hrep'); [done | simpl; lia].
    + rewrite (rep_getCursor fuel _ _ _ _ _ Hrep'); [done | simpl; lia].
  - intros b1 l1 [|c r1] Hrep1.
    + exists b1. split; [by eapply rep_delete_end | done].
    + by apply (rep_delete _ _ _ c).
Qed.

Lemma delete_word_foo_bar_witness :
  buffer_rep (example_buffer "" "foo bar") "000" [] (lit "foo bar") [] ∧
  ∃ b',
    deleteWord 8 (example_buffer "" "foo bar") = Done b' ∧
    getText 8 b' = Done (lit " bar") ∧
    getCursor 8 b' = Done 0.
Proof.
  split; [apply (example_buffer_rep "" "foo bar")|].
  apply (delete_word_foo_bar _ _ _ 8 (example_buffer_rep "" "foo bar")).
  lia.
Defined.

(** C10: for a negative [nChars], [copy(nChars)] converts the count to a
    [size_t] that exceeds the length of the text to the right of the
    cursor, and so sets the clipboard to all of that text; the text and
    the cursor do not change. *)
Theorem copy_negative (b : EditorBuffer) (d : ascii) (l r clip : cstring)
    (nChars : Z) (fuel : nat) :
  buffer_rep b d l r clip →
  INT_MIN ≤ nChars < 0 →
  Z.of_nat (length r) ≤ PTRDIFF_MAX →
  (length l + length r < fuel)%nat →
  Z.of_nat (length r) < to_size_t nChars ∧
  ∃ b',
    copy fuel nChars b = Done b' ∧
    copyString b' = r ∧
    getText fuel b' = getText fuel b ∧
    getCursor fuel b' = getCursor fuel b ∧
    getText fuel b = Done (l ++ r) ∧
    getCursor fuel b = Done (Z.of_nat (length l)).
Proof.
  intros Hrep Hn Hsize Hfuel.
  assert (Hconv : Z.of_nat (length r) < to_size_t nChars).
  { rewrite to_size_t_negative;
      unfold INT_MIN, SIZE_MAX, PTRDIFF_MAX in *; lia. }
  split; [done|]. eexists. split.
  { apply (rep_copy _ _ _ _ _ _ _ Hrep). lia. }
  split_and!; try done.
  - simpl. rewrite Z.min_r, Nat2Z.id by lia. by apply take_ge.
  - apply (rep_getText fuel _ _ _ _ _ Hrep). lia.
  - apply (rep_getCursor fuel _ _ _ _ _ Hrep). lia.
Qed.

Lemma copy_negative_witness :
  buffer_rep (example_buffer "ab" "cd") "000" (lit "ab") (lit "cd") [] ∧
  INT_MIN ≤ -1 < 0 ∧
  Z.of_nat (length (lit "cd")) ≤ PTRDIFF_MAX ∧
  Z.of_nat (length (lit "cd")) < to_size_t (-1) ∧
  ∃ b',
    copy 5 (-1) (example_buffer "ab" "cd") = Done b' ∧
    copyString b' = lit "cd" ∧
    getText 5 b' = getText 5 (example_buffer "ab" "cd") ∧
    getCursor 5 b' = getCursor 5 (example_buffer "ab" "cd") ∧
    getText 5 (example_buffer "ab" "cd") = Done (lit "ab" ++ lit "cd") ∧
    getCursor 5 (example_buffer "ab" "cd") = Done (Z.of_nat (length (lit "ab"))).
Proof.
  assert (Hn : INT_MIN ≤ -1 < 0) by (unfold INT_MIN; lia).
  assert (Hsize : Z.of_nat (length (lit "cd")) ≤ PTRDIFF_MAX)
    by (unfold PTRDIFF_MAX; simpl; lia).
  split; [apply example_buffer_rep|]. split; [exact Hn|].
  split; [exact Hsize|].
  apply (copy_negative _ _ _ _ _ (-1) 5 (example_buffer_rep "ab" "cd")
           Hn Hsize).
  simpl. lia.
Defined.

Lemma run_app_all P (xs ys : cstring) :
  forallb P xs = true → run P (xs ++ ys) = xs ++ run P ys.
Proof.
  induction xs as [|x xs IH]; simpl; [done|].
  intros [-> Hxs]%andb_prop. by rewrite IH.
Qed.

Lemma skip_app_all P (xs ys : cstring) :
  forallb P xs = true → skip P (xs ++ ys) = skip P ys.
Proof.
  induction xs as [|x xs IH]; simpl; [done|].
  intros [-> Hxs]%andb_prop. by rewrite IH.
Qed.

Lemma skip_none P (s : cstring) : run P s = [] → skip P s = s.
Proof. intros H. pose proof (run_skip P s) as E. by rewrite H in E. Qed.

(* a delimiter run [ws], a word [w], and what follows the word *)
Lemma next_word_parts (ws w rest : cstring) :
  forallb is_delim ws = true →
  w ≠ [] → forallb is_word_char w = true →
  run is_word_char rest = [] →
  next_word (ws ++ w ++ rest) = ws ++ w ∧ after_word (ws ++ w ++ rest) = rest.
Proof.
  intros Hws Hne Hw Hrest. unfold next_word, after_word.
  rewrite run_app_all, skip_app_all by done.
  assert (Hrun : run is_delim (w ++ rest) = []).
  { destruct w as [|c w]; [done|]. simpl in *.
    apply andb_prop in Hw as [Hc _]. unfold is_word_char in Hc.
    by destruct (is_delim c). }
  rewrite Hrun, (skip_none _ _ Hrun), app_nil_r.
  rewrite run_app_all, skip_app_all, Hrest, app_nil_r by done.
  by rewrite (skip_none _ _ Hrest).
Qed.

(** ** copyWords and the words of the text *)

Lemma copy_words_step n (ws w rest : cstring) :
  forallb is_delim ws = true →
  w ≠ [] → forallb is_word_char w = true →
  run is_word_char rest = [] →
  copy_words (S n) (ws ++ w ++ rest) = ws ++ w ++ copy_words n rest.
Proof.
  intros Hws Hne Hw Hrest.
  destruct (next_word_parts ws w rest) as [Hword Hafter]; try done.
  cbn [copy_words]. by rewrite Hword, Hafter, <- app_assoc.
Qed.

Lemma words_text_no_word blocks rest :
  Forall word_block blocks →
  run is_word_char rest = [] →
  run is_word_char (words_text blocks ++ rest) = [].
Proof.
  intros Hall Hrest. destruct Hall as [|[ws w] blocks (Hne & Hws & _) _];
    [done|].
  simpl in *. destruct ws as [|c ws]; [done|]. simpl in *.
  apply andb_prop in Hws as [Hc _]. unfold is_word_char. by rewrite Hc.
Qed.

Lemma copy_words_blocks blocks rest :
  Forall word_block blocks →
  run is_word_char rest = [] →
  copy_words (length blocks) (words_text blocks ++ rest) = words_text blocks.
Proof.
  intros Hall Hrest. induction Hall as [|[ws w] blocks Hblock Hall IH];
    [done|].
  destruct Hblock as (_ & Hws & Hne & Hw).
  cbn [words_text length fst snd] in *. rewrite <- !app_assoc.
  rewrite copy_words_step; try done; [by rewrite IH|].
  by apply words_text_no_word.
Qed.

Lemma copy_words_delims n (s : cstring) :
  forallb is_delim s = true → copy_words (S n) s = s.
Proof.
  intros Hs. cbn [copy_words]. unfold next_word, after_word.
  pose proof (run_app_all is_delim s [] Hs) as Hrun.
  pose proof (skip_app_all is_delim s [] Hs) as Hskip.
  rewrite app_nil_r in Hrun, Hskip. simpl in Hrun.
  rewrite Hrun, Hskip. simpl. by rewrite copy_words_nil, !app_nil_r.
Qed.

Lemma copy_words_beyond blocks rest : ∀ n,
  Forall word_block blocks →
  forallb is_delim rest = true →
  (length blocks < n)%nat →
  copy_words n (words_text blocks ++ rest) = words_text blocks ++ rest.
Proof.
  intros n Hall Hrest. revert n.
  induction Hall as [|[ws w] blocks Hblock Hall IH]; intros n Hn.
  - destruct n as [|n]; [lia|]. by apply copy_words_delims.
  - destruct n as [|n]; [simpl in Hn; lia|].
    destruct Hblock as (_ & Hws & Hne & Hw).
    cbn [words_text length fst snd] in *. rewrite <- !app_assoc.
    rewrite copy_words_step; try done; [rewrite IH; [done|lia]|].
    apply words_text_no_word; [done|].
    destruct rest as [|c rest]; [done|]. simpl in *.
    apply andb_prop in Hrest as [Hc _]. unfold is_word_char. by rewrite Hc.
Qed.

(* the first word may have no delimiter before it *)
Lemma copy_words_through (ws w tail : cstring) blocks (n : nat) :
  forallb is_delim ws = true →
  w ≠ [] → forallb is_word_char w = true →
  Forall word_block blocks →
  run is_word_char tail = [] →
  (n = S (length blocks) →
   copy_words n (ws ++ w ++ words_text blocks ++ tail)
   = ws ++ w ++ words_text blocks) ∧
  ((S (length blocks) < n)%nat → forallb is_delim tail = true →
   copy_words n (ws ++ w ++ words_text blocks ++ tail)
   = ws ++ w ++ words_text blocks ++ tail).
Proof.
  intros Hws Hne Hw Hblocks Htail.
  pose proof (words_text_no_word blocks tail Hblocks Htail) as Hnext.
  split.
  - intros ->. rewrite copy_words_step by done.
    by rewrite copy_words_blocks.
  - intros Hn Hdelims. destruct n as [|n]; [lia|].
    rewrite copy_words_step by done.
    rewrite copy_words_beyond; [done..|lia].
Qed.

(** C1, as the code has it: with the cursor in the delimiters [ws] before
    the word [w], [copyWords(nWords)] for [nWords >= 1] sets the clipboard
    to the text from the cursor through the end of the [nWords]-th word:
    the delimiters [ws], the word [w], and each of the next [nWords - 1]
    words with the delimiters before it; when fewer than [nWords] words
    follow the cursor, to all the text to the right of the cursor.  The
    scan passes over the delimiters, and the copy starts at the cursor all
    the same.  Text and cursor stay as they are. *)
Theorem copyWords_from_cursor (b : EditorBuffer) (d : ascii)
    (l ws w rest clip : cstring) (blocks : list (cstring * cstring))
    (nWords : Z) (fuel : nat) :
  buffer_rep b d l (ws ++ w ++ words_text blocks ++ rest) clip →
  ws ≠ [] → forallb is_delim ws = true →
  w ≠ [] → forallb is_word_char w = true →
  Forall word_block blocks →
  run is_word_char rest = [] →
  1 ≤ nWords ≤ INT_MAX →
  Z.of_nat (length l + length (ws ++ w ++ words_text blocks ++ rest))
    ≤ INT_MAX →
  (length l + length (ws ++ w ++ words_text blocks ++ rest) + 1 < fuel)%nat →
  ∃ copied,
    copyWords fuel nWords b = Done (with_copyString b copied) ∧
    copied
    = copy_words (Z.to_nat nWords) (ws ++ w ++ words_text blocks ++ rest) ∧
    (nWords = 1 + Z.of_nat (length blocks) →
     copied = ws ++ w ++ words_text blocks) ∧
    (1 + Z.of_nat (length blocks) < nWords →
     forallb is_delim rest = true →
     copied = ws ++ w ++ words_text blocks ++ rest) ∧
    getText fuel (with_copyString b copied)
    = Done (l ++ ws ++ w ++ words_text blocks ++ rest) ∧
    getCursor fuel (with_copyString b copied) = Done (Z.of_nat (length l)).
Proof.
  intros Hrep _ Hws Hne Hw Hblocks Hrest Hn Hsize Hfuel.
  pose proof (rep_copyWords fuel nWords _ _ _ _ _ Hrep) as Hrun.
  pose proof (rep_with_copyString _ _ _ _ _
                (copy_words (Z.to_nat nWords)
                   (ws ++ w ++ words_text blocks ++ rest)) Hrep) as Hrep'.
  destruct (copy_words_through ws w rest blocks (Z.to_nat nWords))
    as [Hexact Hbeyond]; try done.
  eexists. split; [apply Hrun; [lia|]|].
  { unfold INT_MAX, SIZE_MAX in *. lia. }
  split; [done|]. split_and!.
  - intros Hlast. apply Hexact. lia.
  - intros Hmore Hdelims. apply Hbeyond; [lia | done].
  - apply (rep_getText fuel _ _ _ _ _ Hrep'). lia.
  - apply (rep_getCursor fuel _ _ _ _ _ Hrep'). lia.
Qed.

Lemma copyWords_from_cursor_witness :
  buffer_rep (example_buffer "ab" "  foo bar baz") "000" (lit "ab")
    (lit "  " ++ lit "foo" ++ words_text [(lit " ", lit "bar")] ++ lit " baz")
    [] ∧
  Forall word_block [(lit " ", lit "bar")] ∧
  ∃ copied,
    copyWords 17 2 (example_buffer "ab" "  foo bar baz")
    = Done (with_copyString (example_buffer "ab" "  foo bar baz") copied) ∧
    copied
    = copy_words (Z.to_nat 2)
        (lit "  " ++ lit "foo" ++ words_text [(lit " ", lit "bar")] ++
         lit " baz") ∧
    (2 = 1 + Z.of_nat (length [(lit " ", lit "bar")]) →
     copied = lit "  " ++ lit "foo" ++ words_text [(lit " ", lit "bar")]) ∧
    (1 + Z.of_nat (length [(lit " ", lit "bar")]) < 2 →
     forallb is_delim (lit " baz") = true →
     copied
     = lit "  " ++ lit "foo" ++ words_text [(lit " ", lit "bar")] ++
       lit " baz") ∧
    getText 17 (with_copyString (example_buffer "ab" "  foo bar baz") copied)
    = Done (lit "ab" ++ lit "  " ++ lit "foo" ++
            words_text [(lit " ", lit "bar")] ++ lit " baz") ∧
    getCursor 17 (with_copyString (example_buffer "ab" "  foo bar baz") copied)
    = Done (Z.of_nat (length (lit "ab"))).
Proof.
  assert (Hblocks : Forall word_block [(lit " ", lit "bar")]).
  { constructor; [|constructor]. by unfold word_block. }
  split; [apply (example_buffer_rep "ab" "  foo bar baz")|].
  split; [exact Hblocks|].
  apply (copyWords_from_cursor _ _ _ (lit "  ") (lit "foo") (lit " baz") _
           [(lit " ", lit "bar")] 2 17
           (example_buffer_rep "ab" "  foo bar baz"));
    try done; unfold INT_MAX; simpl; lia.
Defined.

(** C1, as stated, fails: with the text "  foo bar" and the cursor at 0,
    in the two spaces before the word "foo", [copyWords(1)] sets the
    clipboard to "  foo", which begins with a space. *)
Lemma copyWords_leading_whitespace :
  buffer_rep (example_buffer "" "  foo bar") "000" []
    (lit "  " ++ lit "foo" ++ lit " bar") [] ∧
  ∃ b',
    copyWords 11 1 (example_buffer "" "  foo bar") = Done b' ∧
    copyString b' = lit "  foo" ∧
    head (copyString b') = Some SPACE.
Proof.
  split; [apply (example_buffer_rep "" "  foo bar")|].
  eexists. split; [|split]; vm_compute; reflexivity.
Qed.

(** ** moveCursorBackwardWord at the start of the buffer *)

Lemma rep_left_is_delim b d l r clip :
  buffer_rep b d l r clip →
  left_is_delim b = Done (is_delim (List.last l d)).
Proof.
  intros (c & Hc & Hch & Hne)%rep_cursor_ch. unfold left_is_delim.
  rewrite bool_decide_true, Hc by done. simpl. by rewrite Hch.
Qed.

Lemma rep_left_is_word b d l r clip :
  buffer_rep b d l r clip →
  left_is_word b = Done (is_word_char (List.last l d)).
Proof.
  intros (c & Hc & Hch & Hne)%rep_cursor_ch. unfold left_is_word.
  rewrite bool_decide_true, Hc by done. simpl.
  by rewrite is_word_char_spec, Hch.
Qed.

Lemma while_exit {S} fuel cond body (s : S) :
  cond s = Done false → while (Datatypes.S fuel) cond body s = Done s.
Proof. intros H. simpl. by rewrite H. Qed.

Lemma backward_stuck (cond : EditorBuffer → result bool) junk fuel' :
  cond (EditorBuffer_new junk) = Done true →
  ∀ fuel,
    while fuel cond (moveCursorBackward fuel') (EditorBuffer_new junk)
    = OutOfFuel.
Proof.
  intros Hcond fuel. induction fuel as [|fuel IH]; [done|].
  simpl. rewrite Hcond. simpl.
  by rewrite (rep_backward_start fuel' _ _ _ _ (rep_new junk)).
Qed.

Lemma last_all (P : ascii → bool) (l : cstring) d :
  forallb P l = true → P d = true → P (List.last l d) = true.
Proof.
  induction l as [|c l IH]; [done|]. intros [Hc Hl]%andb_prop Hd.
  destruct l as [|c' l]; [done|]. by apply IH.
Qed.

Lemma rep_backward_any fuel b b' d l r clip :
  buffer_rep b d l r clip →
  moveCursorBackward fuel b = Done b' →
  ∃ l' r', buffer_rep b' d l' r' clip ∧ ∃ k, l = l' ++ k.
Proof.
  intros Hrep Hrun. destruct l as [|c l _] using rev_ind.
  - rewrite (rep_backward_start _ _ _ _ _ Hrep) in Hrun.
    injection Hrun as <-. exists [], r. split; [done | by exists []].
  - destruct (rep_backward (fuel `max` S (length l)) _ _ _ _ _ _ Hrep)
      as (b1 & Hrun1 & Hrep1); [lia|].
    rewrite (moveCursorBackward_more_fuel _ _ _ _ Hrun) in Hrun1 by lia.
    injection Hrun1 as ->. exists l, (c :: r). split; [done | by exists [c]].
Qed.

(* the second loop does not leave a first word that the dummy cell does
   not delimit *)
Lemma backward_word_loop_runs_on d clip fuel' : ∀ fuel b l r,
  buffer_rep b d l r clip →
  forallb is_word_char l = true → is_word_char d = true →
  ∀ b', while fuel left_is_word (moveCursorBackward fuel') b ≠ Done b'.
Proof.
  induction fuel as [|fuel IH]; intros b l r Hrep Hl Hd b'; [done|].
  simpl. rewrite (rep_left_is_word _ _ _ _ _ Hrep), last_all by done.
  simpl. destruct (moveCursorBackward fuel' b) as [b1| |] eqn:Hrun; try done.
  destruct (rep_backward_any _ _ _ _ _ _ _ Hrep Hrun)
    as (l' & r' & Hrep' & k & ->).
  simpl. apply (IH _ _ _ Hrep'); [|done].
  rewrite forallb_app in Hl. by apply andb_prop in Hl as [? _].
Qed.

(** The same away from the empty buffer: when the dummy cell holds a
    character that is not a delimiter (a zero byte, say) and no delimiter
    stands between the start of the text and the cursor,
    [moveCursorBackwardWord()] does not return. *)
Lemma moveCursorBackwardWord_hangs_in_first_word fuel b d l r clip :
  buffer_rep b d l r clip →
  forallb is_word_char l = true → is_word_char d = true →
  ∀ b', moveCursorBackwardWord fuel b ≠ Done b'.
Proof.
  intros Hrep Hl Hd b'. unfold moveCursorBackwardWord.
  destruct fuel as [|fuel]; [done|].
  pose proof (rep_left_is_delim _ _ _ _ _ Hrep) as Hdelim.
  pose proof (last_all _ _ _ Hl Hd) as Hlast. unfold is_word_char in Hlast.
  destruct (is_delim (List.last l d)); [done|].
  rewrite (while_exit _ _ _ _ Hdelim). cbn [bind].
  by eapply backward_word_loop_runs_on.
Qed.

(** C2 does not hold of the code: on a newly constructed buffer, whatever
    character the dummy cell holds, [moveCursorBackwardWord()] does not
    return.  Its loops test [cursor != NULL], which is always true, and
    not [cursor != start]; at the start [moveCursorBackward()] leaves the
    cursor where it is, and one of the two loops runs for ever. *)
Theorem moveCursorBackwardWord_never_returns (junk : ascii) (fuel : nat) :
  moveCursorBackwardWord fuel (EditorBuffer_new junk) = OutOfFuel.
Proof.
  unfold moveCursorBackwardWord.
  pose proof (rep_left_is_delim _ _ _ _ _ (rep_new junk)) as Hd.
  pose proof (rep_left_is_word _ _ _ _ _ (rep_new junk)) as Hw.
  simpl in Hd, Hw.
  destruct (is_delim junk) eqn:E.
  - by rewrite backward_stuck.
  - destruct fuel as [|fuel]; [done|].
    rewrite (while_exit _ _ _ _ Hd). cbn [bind].
    apply backward_stuck. rewrite Hw. unfold is_word_char. by rewrite E.
Qed.

(** * Further properties of the methods *)

(** ** Single steps of the cursor *)

Lemma with_cursor_same b p : cursor b = p → with_cursor b p = b.
Proof. intros <-. by destruct b. Qed.

Lemma with_cursor_twice b p q :
  with_cursor (with_cursor b p) q = with_cursor b q.
Proof. done. Qed.

(** X1: [moveCursorForward()] moves the cursor over the one character to
    its right, and at the end of the text it returns the buffer as it
    is; text and clipboard stay. *)
Theorem moveCursorForward_step (b : EditorBuffer) (d : ascii)
    (l r clip : cstring) :
  buffer_rep b d l r clip →
  ∃ b', moveCursorForward b = Done b' ∧
        buffer_rep b' d (l ++ take 1 r) (drop 1 r) clip ∧
        (r = [] → b' = b).
Proof.
  intros Hrep. destruct r as [|c r].
  - exists b. rewrite (rep_forward_end _ _ _ _ Hrep), app_nil_r. done.
  - destruct (rep_forward _ _ _ _ _ _ Hrep) as (b' & Hrun & Hrep').
    exists b'. split_and!; [done | exact Hrep' | done].
Qed.

Lemma moveCursorForward_step_witness :
  buffer_rep (example_buffer "ab" "cd") "000" (lit "ab") (lit "cd") [] ∧
  ∃ b', moveCursorForward (example_buffer "ab" "cd") = Done b' ∧
        buffer_rep b' "000" (lit "ab" ++ take 1 (lit "cd"))
          (drop 1 (lit "cd")) [] ∧
        (lit "cd" = [] → b' = example_buffer "ab" "cd").
Proof.
  split; [apply example_buffer_rep|].
  apply (moveCursorForward_step _ _ _ _ _ (example_buffer_rep "ab" "cd")).
Defined.

(** X2: [moveCursorBackward()] moves the cursor back over the one
    character to its left, and at the start of the text it returns the
    buffer as it is; text and clipboard stay. *)
Theorem moveCursorBackward_step (b : EditorBuffer) (d : ascii)
    (l r clip : cstring) (fuel : nat) :
  buffer_rep b d l r clip →
  (length l ≤ fuel)%nat →
  ∃ b', moveCursorBackward fuel b = Done b' ∧
        buffer_rep b' d (take (length l - 1) l)
          (drop (length l - 1) l ++ r) clip ∧
        (l = [] → b' = b).
Proof.
  intros Hrep Hfuel. destruct l as [|c l _] using rev_ind.
  - exists b. by rewrite (rep_backward_start _ _ _ _ _ Hrep).
  - rewrite length_app in *. simpl in *.
    destruct (rep_backward fuel _ _ _ _ _ _ Hrep) as (b' & Hrun & Hrep');
      [lia|].
    exists b'. replace (length l + 1 - 1)%nat with (length l) by lia.
    rewrite take_app_length, drop_app_length. split_and!; try done.
    intros E. by destruct l.
Qed.

Lemma moveCursorBackward_step_witness :
  buffer_rep (example_buffer "ab" "cd") "000" (lit "ab") (lit "cd") [] ∧
  ∃ b', moveCursorBackward 2 (example_buffer "ab" "cd") = Done b' ∧
        buffer_rep b' "000" (take (length (lit "ab") - 1) (lit "ab"))
          (drop (length (lit "ab") - 1) (lit "ab") ++ lit "cd") [] ∧
        (lit "ab" = [] → b' = example_buffer "ab" "cd").
Proof.
  split; [apply example_buffer_rep|].
  apply (moveCursorBackward_step _ _ _ _ _ 2 (example_buffer_rep "ab" "cd")).
  simpl. lia.
Defined.

(** X3: one step forward and one step back, or one step back and one
    step forward, bring the buffer back to the very state it was in. *)
Theorem forward_backward_round_trip (b : EditorBuffer) (d : ascii)
    (l r clip : cstring) (fuel : nat) :
  buffer_rep b d l r clip →
  (length l < fuel)%nat →
  (r ≠ [] →
   ∃ b1, moveCursorForward b = Done b1 ∧ moveCursorBackward fuel b1 = Done b) ∧
  (l ≠ [] →
   ∃ b1, moveCursorBackward fuel b = Done b1 ∧ moveCursorForward b1 = Done b).
Proof.
  intros (before & cur & after & Hcells & Hl & Hr & Hclip) Hfuel.
  pose proof (rep_lengths _ _ _ _ Hl) as Hlen.
  pose proof Hcells as [Hcur _ _]. split.
  - intros Hne. destruct after as [|x after]; [by subst r|].
    destruct (cells_forward _ _ _ _ _ Hcells) as [Hrun Hcells1].
    destruct (cells_backward fuel _ _ _ _ _ Hcells1) as [Hrun1 _]; [lia|].
    eexists. split; [done|].
    by rewrite Hrun1, with_cursor_twice, with_cursor_same.
  - intros Hne. destruct before as [|prev before _] using rev_ind.
    { simpl in Hl. injection Hl as _ <-. done. }
    rewrite length_app in Hlen. simpl in Hlen.
    destruct (cells_backward fuel _ _ _ _ _ Hcells) as [Hrun Hcells1]; [lia|].
    destruct (cells_forward _ _ _ _ _ Hcells1) as [Hrun1 _].
    eexists. split; [done|].
    by rewrite Hrun1, with_cursor_twice, with_cursor_same.
Qed.

Lemma forward_backward_round_trip_witness :
  buffer_rep (example_buffer "ab" "cd") "000" (lit "ab") (lit "cd") [] ∧
  (lit "cd" ≠ [] →
   ∃ b1, moveCursorForward (example_buffer "ab" "cd") = Done b1 ∧
         moveCursorBackward 3 b1 = Done (example_buffer "ab" "cd")) ∧
  (lit "ab" ≠ [] →
   ∃ b1, moveCursorBackward 3 (example_buffer "ab" "cd") = Done b1 ∧
         moveCursorForward b1 = Done (example_buffer "ab" "cd")).
Proof.
  split; [apply example_buffer_rep|].
  apply (forward_backward_round_trip _ _ _ _ _ 3
           (example_buffer_rep "ab" "cd")).
  simpl. lia.
Defined.

(** ** Jumps of the cursor *)

Lemma rep_cursor_link b d l r clip :
  buffer_rep b d l r clip →
  ∃ c, deref (heap b) (cursor b) = Done c ∧ (link c = None ↔ r = []).
Proof.
  intros (before & cur & after & Hcells & Hl & Hr & Hclip).
  rewrite (cursor_cell _ _ _ _ Hcells). eexists. split; [done|].
  subst r. by destruct after.
Qed.

Lemma forward_is_link_step b c :
  deref (heap b) (cursor b) = Done c → link c ≠ None →
  moveCursorForward b = Done (with_cursor b (link c)).
Proof.
  intros Hc Hlink. unfold moveCursorForward. rewrite Hc. simpl.
  by rewrite bool_decide_true.
Qed.

Lemma rep_moveCursorToEnd d clip fuel : ∀ r b l,
  buffer_rep b d l r clip →
  (length r < fuel)%nat →
  ∃ b', moveCursorToEnd fuel b = Done b' ∧ buffer_rep b' d (l ++ r) [] clip.
Proof.
  unfold moveCursorToEnd.
  induction fuel as [|fuel IH]; intros r b l Hrep Hfuel; [lia|].
  destruct (rep_cursor_link _ _ _ _ _ Hrep) as (c & Hc & Hend).
  cbn [while]. rewrite Hc. cbn [bind]. case_bool_decide as Hlink.
  - cbn [bind]. destruct r as [|x r]; [by destruct Hlink; apply Hend|].
    destruct (rep_forward _ _ _ _ _ _ Hrep) as (b1 & Hrun & Hrep1).
    rewrite (forward_is_link_step _ _ Hc Hlink) in Hrun.
    injection Hrun as <-.
    destruct (IH _ _ _ Hrep1) as (b' & Hrun' & Hrep'); [simpl in Hfuel; lia|].
    exists b'. by rewrite <- app_assoc in Hrep'.
  - exists b. split; [done|].
    assert (r = []) as -> by (apply Hend; by destruct (link c)).
    by rewrite app_nil_r.
Qed.

(** X4: [moveCursorToStart()] puts the cursor before the whole text and
    [moveCursorToEnd()] after it; neither changes text or clipboard. *)
Theorem moveCursorToStart_ToEnd (b : EditorBuffer) (d : ascii)
    (l r clip : cstring) (fuel : nat) :
  buffer_rep b d l r clip →
  (length r < fuel)%nat →
  (∃ b', moveCursorToStart b = Done b' ∧ buffer_rep b' d [] (l ++ r) clip) ∧
  (∃ b', moveCursorToEnd fuel b = Done b' ∧ buffer_rep b' d (l ++ r) [] clip).
Proof.
  intros Hrep Hfuel. split.
  - eexists. split; [done|]. by apply rep_to_start.
  - by apply rep_moveCursorToEnd.
Qed.

Lemma moveCursorToStart_ToEnd_witness :
  buffer_rep (example_buffer "ab" "cd") "000" (lit "ab") (lit "cd") [] ∧
  (∃ b', moveCursorToStart (example_buffer "ab" "cd") = Done b' ∧
         buffer_rep b' "000" [] (lit "ab" ++ lit "cd") []) ∧
  (∃ b', moveCursorToEnd 3 (example_buffer "ab" "cd") = Done b' ∧
         buffer_rep b' "000" (lit "ab" ++ lit "cd") [] []).
Proof.
  split; [apply example_buffer_rep|].
  apply (moveCursorToStart_ToEnd _ _ _ _ _ 3 (example_buffer_rep "ab" "cd")).
  simpl. lia.
Defined.

(** ** Insertion and deletion of one character *)

Lemma insert_size c b b' before cur after :
  buffer_cells b before cur after →
  insertCharacter c b = Done b' →
  size (heap b') = S (size (heap b)).
Proof.
  intros Hcells. unfold insertCharacter.
  rewrite (cursor_cell _ _ _ _ Hcells). cbn [bind].
  destruct Hcells as [Hcur (_ & Hc & _)%lseg_split _].
  pose proof (new_Cell_fresh (heap b)) as Hp.
  assert (Hne : new_Cell (heap b) ≠ cur.1).
  { intros E. rewrite E in Hp. congruence. }
  rewrite Hcur. cbn [set_link].
  rewrite lookup_insert_ne, Hc by done.
  intros [= <-]. simpl.
  rewrite map_size_insert_Some, map_size_insert_None; [done..|].
  by rewrite lookup_insert_ne, Hc.
Qed.

Lemma delete_size b b' before cur x after :
  buffer_cells b before cur (x :: after) →
  deleteCharacter b = Done b' →
  S (size (heap b')) = size (heap b).
Proof.
  intros Hcells. unfold deleteCharacter.
  rewrite (cursor_cell _ _ _ _ Hcells). cbn [bind head_addr link].
  destruct Hcells as [Hcur Hch Hnd].
  apply nodup_parts in Hnd as (_ & _ & _ & Hca & _).
  apply not_elem_of_cons in Hca as [Hcx _].
  apply lseg_split in Hch as (_ & Hc & _ & n & Hx & _).
  rewrite bool_decide_true by done. unfold deref. rewrite Hx. cbn [bind link].
  rewrite Hcur. cbn [set_link]. rewrite Hc. cbn [bind delete_Cell].
  rewrite lookup_insert_ne, Hx by done. intros [= <-]. simpl.
  rewrite map_size_delete_Some by (by rewrite lookup_insert_ne, Hx).
  rewrite map_size_insert_Some by (by rewrite Hc).
  assert (size (heap b) ≠ 0%nat); [|lia].
  intros Hz%map_size_empty_inv. by rewrite Hz, lookup_empty in Hc.
Qed.

(** X5: [insertCharacter(c)] puts [c] at the cursor, between the text to
    its left and the text to its right, and leaves the cursor after [c];
    it allocates one cell and changes no character that was there. *)
Theorem insertCharacter_at_cursor (b : EditorBuffer) (d : ascii)
    (l r clip : cstring) (c : ascii) :
  buffer_rep b d l r clip →
  ∃ b', insertCharacter c b = Done b' ∧
        buffer_rep b' d (l ++ [c]) r clip ∧
        size (heap b') = S (size (heap b)).
Proof.
  intros Hrep. destruct (rep_insert c _ _ _ _ _ Hrep) as (b' & Hrun & Hrep').
  exists b'. split_and!; try done.
  destruct Hrep as (before & cur & after & Hcells & _).
  by eapply insert_size.
Qed.

Lemma insertCharacter_at_cursor_witness :
  buffer_rep (example_buffer "ab" "cd") "000" (lit "ab") (lit "cd") [] ∧
  ∃ b', insertCharacter "x" (example_buffer "ab" "cd") = Done b' ∧
        buffer_rep b' "000" (lit "ab" ++ ["x"%char]) (lit "cd") [] ∧
        size (heap b') = S (size (heap (example_buffer "ab" "cd"))).
Proof.
  split; [apply example_buffer_rep|].
  apply (insertCharacter_at_cursor _ _ _ _ _ "x"
           (example_buffer_rep "ab" "cd")).
Defined.

(** X6: [deleteCharacter()] removes the character to the right of the
    cursor and frees its cell; the cursor, the text to its left and the
    clipboard stay.  At the end of the text it returns the buffer as it
    is. *)
Theorem deleteCharacter_right_of_cursor (b : EditorBuffer) (d : ascii)
    (l r clip : cstring) :
  buffer_rep b d l r clip →
  ∃ b', deleteCharacter b = Done b' ∧
        buffer_rep b' d l (drop 1 r) clip ∧
        (r = [] → b' = b) ∧
        (r ≠ [] → S (size (heap b')) = size (heap b)).
Proof.
  intros Hrep. destruct r as [|c r].
  - exists b. by rewrite (rep_delete_end _ _ _ _ Hrep).
  - destruct (rep_delete _ _ _ _ _ _ Hrep) as (b' & Hrun & Hrep').
    exists b'. split_and!; try done. intros _.
    destruct Hrep as (before & cur & [|x after] & Hcells & _ & Hr & _);
      [done|].
    by eapply delete_size.
Qed.

Lemma deleteCharacter_right_of_cursor_witness :
  buffer_rep (example_buffer "ab" "cd") "000" (lit "ab") (lit "cd") [] ∧
  ∃ b', deleteCharacter (example_buffer "ab" "cd") = Done b' ∧
        buffer_rep b' "000" (lit "ab") (drop 1 (lit "cd")) [] ∧
        (lit "cd" = [] → b' = example_buffer "ab" "cd") ∧
        (lit "cd" ≠ [] →
         S (size (heap b')) = size (heap (example_buffer "ab" "cd"))).
Proof.
  split; [apply example_buffer_rep|].
  apply (deleteCharacter_right_of_cursor _ _ _ _ _
           (example_buffer_rep "ab" "cd")).
Defined.

(** X7: [insertCharacter(c); deleteCharacter()] does not undo the
    insertion: it replaces the character that was to the right of the
    cursor by [c] (and only adds [c] at the end of the text). *)
Theorem insert_delete_overwrites (b : EditorBuffer) (d : ascii)
    (l r clip : cstring) (c : ascii) :
  buffer_rep b d l r clip →
  ∃ b1 b2, insertCharacter c b = Done b1 ∧
           deleteCharacter b1 = Done b2 ∧
           buffer_rep b2 d (l ++ [c]) (drop 1 r) clip.
Proof.
  intros Hrep. destruct (rep_insert c _ _ _ _ _ Hrep) as (b1 & Hrun1 & Hrep1).
  exists b1. destruct r as [|x r].
  - exists b1. by rewrite (rep_delete_end _ _ _ _ Hrep1).
  - destruct (rep_delete _ _ _ _ _ _ Hrep1) as (b2 & Hrun2 & Hrep2).
    by exists b2.
Qed.

Lemma insert_delete_overwrites_witness :
  buffer_rep (example_buffer "ab" "cd") "000" (lit "ab") (lit "cd") [] ∧
  ∃ b1 b2, insertCharacter "x" (example_buffer "ab" "cd") = Done b1 ∧
           deleteCharacter b1 = Done b2 ∧
           buffer_rep b2 "000" (lit "ab" ++ ["x"%char]) (drop 1 (lit "cd")) [].
Proof.
  split; [apply example_buffer_rep|].
  apply (insert_delete_overwrites _ _ _ _ _ "x"
           (example_buffer_rep "ab" "cd")).
Defined.

(** ** insertString and paste, in general *)






(** ** More about the loops *)

Lemma while_exit_cond {S} cond body fuel : ∀ (s s' : S),
  while fuel cond body s = Done s' → cond s' = Done false.
Proof.
  induction fuel as [|fuel IH]; intros s s'; simpl; [done|].
  intros ([] & Hc & Hrun)%bind_Done.
  - apply bind_Done in Hrun as (s1 & _ & Hrun). eauto.
  - by injection Hrun as <-.
Qed.

Lemma bind_no_fault {A B} (m : result A) (k : A → result B) :
  m ≠ Fault → (∀ x, m = Done x → k x ≠ Fault) → bind m k ≠ Fault.
Proof. destruct m; simpl; [eauto | done | done]. Qed.

(* a loop that does not fault does not fault with less fuel *)
Lemma while_fuel_no_fault {S} cond body fuel : ∀ fuel' (s : S),
  (fuel ≤ fuel')%nat →
  while fuel' cond body s ≠ Fault → while fuel cond body s ≠ Fault.
Proof.
  induction fuel as [|fuel IH]; intros fuel' s Hle; [done|].
  destruct fuel' as [|fuel']; [lia|]. simpl.
  destruct (cond s) as [[]| |]; simpl; try done.
  destruct (body s) as [s1| |]; simpl; try done.
  apply IH. lia.
Qed.

Lemma for_loop_fuel_no_fault {S} cond incr body fuel : ∀ fuel' (s : S),
  (fuel ≤ fuel')%nat →
  for_loop fuel' cond incr body s ≠ Fault →
  for_loop fuel cond incr body s ≠ Fault.
Proof.
  induction fuel as [|fuel IH]; intros fuel' s Hle; [done|].
  destruct fuel' as [|fuel']; [lia|]. simpl.
  destruct (cond s); [|done].
  destruct (body s) as [[s1|s1]| |]; simpl; try done.
  destruct (incr s1) as [s2| |]; simpl; try done.
  apply IH. lia.
Qed.

(* a loop whose test and body do not fault where the invariant holds *)
Lemma while_no_fault {S} (I : S → Prop) cond body :
  (∀ s, I s → ∃ c, cond s = Done c) →
  (∀ s, I s → cond s = Done true →
        body s ≠ Fault ∧ ∀ s', body s = Done s' → I s') →
  ∀ fuel s, I s → while fuel cond body s ≠ Fault.
Proof.
  intros Hcond Hbody fuel.
  induction fuel as [|fuel IH]; intros s Hs; [done|]. simpl.
  destruct (Hcond s Hs) as [[] Hc]; rewrite Hc; simpl; [|done].
  destruct (Hbody s Hs Hc) as [Hnf Hnext].
  destruct (body s) as [s1| |]; simpl; try done. by apply IH, Hnext.
Qed.

Lemma for_loop_no_fault {S} (I : S → Prop) cond incr body :
  (∀ s, I s → cond s = true →
        body s ≠ Fault ∧
        ∀ s', body s = Done (Next s') →
              incr s' ≠ Fault ∧ ∀ s'', incr s' = Done s'' → I s'') →
  ∀ fuel s, I s → for_loop fuel cond incr body s ≠ Fault.
Proof.
  intros Hbody fuel.
  induction fuel as [|fuel IH]; intros s Hs; [done|]. simpl.
  destruct (cond s) eqn:Hc; [|done].
  destruct (Hbody s Hs Hc) as [Hnf Hnext].
  destruct (body s) as [[s1|s1]| |]; simpl; try done.
  destruct (Hnext s1 eq_refl) as [Hi Hinv].
  destruct (incr s1) as [s2| |]; simpl; try done. by apply IH, Hinv.
Qed.

Lemma moveCursorBackward_no_fault fuel b :
  well_formed b → moveCursorBackward fuel b ≠ Fault.
Proof.
  intros (d & l & r & clip & Hrep).
  destruct l as [|c l _] using rev_ind.
  { by rewrite (rep_backward_start _ _ _ _ _ Hrep). }
  destruct (rep_backward (fuel `max` S (length l)) _ _ _ _ _ _ Hrep)
    as (b' & Hrun & _); [lia|].
  revert Hrun. unfold moveCursorBackward. case_bool_decide; [|done].
  intros (cp & Hrun & _)%bind_Done.
  apply bind_no_fault; [|done].
  eapply while_fuel_no_fault; [|by rewrite Hrun]. lia.
Qed.

(** ** The word scans, in general *)

Lemma run_all P (s : cstring) : forallb P (run P s) = true.
Proof.
  induction s as [|c s IH]; simpl; [done|].
  destruct (P c) eqn:E; simpl; [by rewrite E|done].
Qed.

Lemma skip_head P (s : cstring) c : head (skip P s) = Some c → P c = false.
Proof.
  induction s as [|x s IH]; simpl; [done|].
  destruct (P x) eqn:E; [done|]. by intros [= <-].
Qed.

(* the parts of the text that a forward scan passes and leaves *)
Lemma word_parts (r : cstring) :
  ∃ ws w rest,
    r = ws ++ w ++ rest ∧ next_word r = ws ++ w ∧ after_word r = rest ∧
    forallb is_delim ws = true ∧ forallb is_word_char w = true ∧
    (∀ c, head rest = Some c → is_delim c = true) ∧
    (w = [] → rest = []).
Proof.
  exists (run is_delim r), (run is_word_char (skip is_delim r)),
    (after_word r).
  split_and!; try done.
  - symmetry. rewrite app_assoc. apply next_word_after.
  - apply run_all.
  - apply run_all.
  - intros c Hc%skip_head. unfold is_word_char in Hc.
    by destruct (is_delim c).
  - unfold after_word. intros Hw. rewrite (skip_none _ _ Hw).
    destruct (skip is_delim r) as [|c s] eqn:Hs; [done|].
    assert (Hc : is_delim c = false) by (apply (skip_head _ r); by rewrite Hs).
    simpl in Hw. unfold is_word_char in Hw. by rewrite Hc in Hw.
Qed.

(** X10: [moveCursorForwardWord()] moves the cursor over the delimiters
    (spaces and newlines) to its right and over the word that follows
    them: it stops before the first delimiter after that word or at the
    end of the text, and it stops at the end when only delimiters were
    left.  Text and clipboard stay. *)
Theorem moveCursorForwardWord_stops_after_word (b : EditorBuffer) (d : ascii)
    (l r clip : cstring) (fuel : nat) :
  buffer_rep b d l r clip →
  (length r < fuel)%nat →
  ∃ b' ws w rest,
    moveCursorForwardWord fuel b = Done b' ∧
    r = ws ++ w ++ rest ∧
    forallb is_delim ws = true ∧ forallb is_word_char w = true ∧
    (∀ c, head rest = Some c → is_delim c = true) ∧
    (w = [] → rest = []) ∧
    buffer_rep b' d (l ++ ws ++ w) rest clip.
Proof.
  intros Hrep Hfuel.
  destruct (rep_moveCursorForwardWord fuel _ _ _ _ _ Hrep Hfuel)
    as (b' & Hrun & Hrep').
  destruct (word_parts r) as (ws & w & rest & Hr & Hn & Ha & Hws & Hw & Hh & He).
  rewrite Hn, Ha in Hrep'. by exists b', ws, w, rest.
Qed.

Lemma moveCursorForwardWord_stops_after_word_witness :
  buffer_rep (example_buffer "ab" "cd  ef") "000" (lit "ab") (lit "cd  ef") []
  ∧
  ∃ b' ws w rest,
    moveCursorForwardWord 7 (example_buffer "ab" "cd  ef") = Done b' ∧
    lit "cd  ef" = ws ++ w ++ rest ∧
    forallb is_delim ws = true ∧ forallb is_word_char w = true ∧
    (∀ c, head rest = Some c → is_delim c = true) ∧
    (w = [] → rest = []) ∧
    buffer_rep b' "000" (lit "ab" ++ ws ++ w) rest [].
Proof.
  split; [apply example_buffer_rep|].
  apply (moveCursorForwardWord_stops_after_word _ _ _ _ _ 7
           (example_buffer_rep "ab" "cd  ef")).
  simpl. lia.
Defined.

(** X11: [deleteWord()] deletes exactly the characters that
    [moveCursorForwardWord()] moves the cursor over, the delimiters to the
    right of the cursor and the word after them, and leaves the cursor,
    the text to its left and the clipboard as they are. *)
Theorem deleteWord_deletes_what_forward_passes (b : EditorBuffer) (d : ascii)
    (l r clip : cstring) (fuel : nat) :
  buffer_rep b d l r clip →
  (length r < fuel)%nat →
  ∃ b1 b2 passed rest,
    r = passed ++ rest ∧
    moveCursorForwardWord fuel b = Done b1 ∧
    buffer_rep b1 d (l ++ passed) rest clip ∧
    deleteWord fuel b = Done b2 ∧
    buffer_rep b2 d l rest clip.
Proof.
  intros Hrep Hfuel.
  destruct (rep_moveCursorForwardWord fuel _ _ _ _ _ Hrep Hfuel)
    as (b1 & Hrun1 & Hrep1).
  destruct (rep_deleteWord fuel _ _ _ _ _ Hrep Hfuel) as (b2 & Hrun2 & Hrep2).
  exists b1, b2, (next_word r), (after_word r).
  by rewrite next_word_after.
Qed.

Lemma deleteWord_deletes_what_forward_passes_witness :
  buffer_rep (example_buffer "ab" "  cd ef") "000" (lit "ab") (lit "  cd ef")
    [] ∧
  ∃ b1 b2 passed rest,
    lit "  cd ef" = passed ++ rest ∧
    moveCursorForwardWord 8 (example_buffer "ab" "  cd ef") = Done b1 ∧
    buffer_rep b1 "000" (lit "ab" ++ passed) rest [] ∧
    deleteWord 8 (example_buffer "ab" "  cd ef") = Done b2 ∧
    buffer_rep b2 "000" (lit "ab") rest [].
Proof.
  split; [apply example_buffer_rep|].
  apply (deleteWord_deletes_what_forward_passes _ _ _ _ _ 8
           (example_buffer_rep "ab" "  cd ef")).
  simpl. lia.
Defined.

(** ** moveCursorBackwardWord, where it returns and where it does not *)

Section ScanBackward.
Context (P : ascii → bool) (cond : EditorBuffer → result bool).
Context (d : ascii) (clip : cstring).
Hypothesis cond_spec : ∀ b l r,
  buffer_rep b d l r clip → cond b = Done (P (List.last l d)).

(* while (cond) moveCursorBackward(); over characters that satisfy [P],
   up to a character (or the dummy cell) that does not *)
Lemma scan_backward fuel' : ∀ fuel xs b l1 r,
  buffer_rep b d (l1 ++ xs) r clip →
  forallb P xs = true → P (List.last l1 d) = false →
  (length xs < fuel)%nat → (length (l1 ++ xs) ≤ fuel')%nat →
  ∃ b', while fuel cond (moveCursorBackward fuel') b = Done b' ∧
        buffer_rep b' d l1 (xs ++ r) clip.
Proof using cond_spec.
  induction fuel as [|fuel IH]; intros xs b l1 r Hrep Hxs Hl1 Hf Hf'; [lia|].
  simpl. rewrite (cond_spec _ _ _ Hrep).
  destruct xs as [|x xs _] using rev_ind.
  - rewrite app_nil_r in *. rewrite Hl1. by exists b.
  - rewrite app_assoc in Hrep. rewrite app_assoc, last_last.
    rewrite forallb_app in Hxs. simpl in Hxs.
    apply andb_prop in Hxs as [Hxs [-> _]%andb_prop]. simpl.
    rewrite !length_app in *. simpl in *.
    destruct (rep_backward fuel' _ _ _ _ _ _ Hrep) as (b1 & -> & Hrep1).
    { rewrite length_app. lia. }
    simpl. destruct (IH xs b1 l1 (x :: r)) as (b' & Hrun & Hrep');
      try done; try lia.
    { rewrite length_app. lia. }
    exists b'. by rewrite <- app_assoc.
Qed.

(* where [P] holds of all that is to the left of the cursor and of the
   dummy cell, the loop does not end *)
Lemma scan_backward_spins fuel' : ∀ fuel b l r,
  buffer_rep b d l r clip →
  forallb P l = true → P d = true →
  while fuel cond (moveCursorBackward fuel') b = OutOfFuel.
Proof using cond_spec.
  induction fuel as [|fuel IH]; intros b l r Hrep Hl Hd; [done|].
  simpl. rewrite (cond_spec _ _ _ Hrep), last_all by done. simpl.
  assert (Hwf : well_formed b) by (by eexists _, _, _, _).
  pose proof (moveCursorBackward_no_fault fuel' b Hwf) as Hnf.
  destruct (moveCursorBackward fuel' b) as [b1| |] eqn:Hrun; try done.
  destruct (rep_backward_any _ _ _ _ _ _ _ Hrep Hrun)
    as (l' & r' & Hrep' & k & ->).
  simpl. apply (IH _ _ _ Hrep'); [|done].
  rewrite forallb_app in Hl. by apply andb_prop in Hl as [? _].
Qed.
End ScanBackward.

Lemma last_nonempty (w : cstring) d d' : w ≠ [] → List.last w d = List.last w d'.
Proof.
  induction w as [|c w IH]; [done|]. intros _.
  destruct w as [|c' w]; [done|]. by apply IH.
Qed.

Lemma last_app_nonempty (l w : cstring) d :
  w ≠ [] → List.last (l ++ w) d = List.last w d.
Proof.
  intros Hw. destruct w as [|c w _] using rev_ind; [done|].
  by rewrite app_assoc, !last_last.
Qed.

Lemma rep_moveCursorBackwardWord fuel b d l1 w ws r clip :
  buffer_rep b d (l1 ++ w ++ ws) r clip →
  w ≠ [] → forallb is_word_char w = true → forallb is_delim ws = true →
  is_delim (List.last l1 d) = true →
  (length (l1 ++ w ++ ws) < fuel)%nat →
  ∃ b', moveCursorBackwardWord fuel b = Done b' ∧
        buffer_rep b' d l1 (w ++ ws ++ r) clip.
Proof.
  intros Hrep Hne Hw Hws Hl1 Hfuel. unfold moveCursorBackwardWord.
  rewrite !length_app in Hfuel.
  rewrite app_assoc in Hrep.
  destruct (scan_backward is_delim left_is_delim d clip
              (λ b l r, rep_left_is_delim b d l r clip)
              fuel fuel ws b (l1 ++ w) r) as (b1 & -> & Hrep1); try done.
  { rewrite last_app_nonempty by done.
    pose proof (last_all is_word_char w "a"%char Hw eq_refl) as Hlast.
    rewrite (last_nonempty w d "a"%char) by done.
    unfold is_word_char in Hlast.
    by destruct (is_delim (List.last w "a"%char)). }
  { lia. }
  { rewrite !length_app. lia. }
  cbn [bind].
  destruct (scan_backward is_word_char left_is_word d clip
              (λ b l r, rep_left_is_word b d l r clip)
              fuel fuel w b1 l1 (ws ++ r)) as (b2 & -> & Hrep2); try done.
  { unfold is_word_char. by rewrite Hl1. }
  { lia. }
  { rewrite !length_app. lia. }
  by exists b2.
Qed.

(** X12: where the word to the left of the cursor, with any delimiters
    between it and the cursor, has a delimiter before it,
    [moveCursorBackwardWord()] returns with the cursor at the start of
    that word; for the first word of the text this takes a delimiter in
    the dummy cell.  Text and clipboard stay. *)
Theorem moveCursorBackwardWord_start_of_word (b : EditorBuffer) (d : ascii)
    (l1 w ws r clip : cstring) (fuel : nat) :
  buffer_rep b d (l1 ++ w ++ ws) r clip →
  w ≠ [] → forallb is_word_char w = true → forallb is_delim ws = true →
  is_delim (List.last l1 d) = true →
  (length (l1 ++ w ++ ws) < fuel)%nat →
  ∃ b', moveCursorBackwardWord fuel b = Done b' ∧
        buffer_rep b' d l1 (w ++ ws ++ r) clip ∧
        getCursor fuel b' = Done (Z.of_nat (length l1)).
Proof.
  intros Hrep Hne Hw Hws Hl1 Hfuel.
  destruct (rep_moveCursorBackwardWord fuel _ _ _ _ _ _ _ Hrep)
    as (b' & Hrun & Hrep'); try done.
  exists b'. split_and!; try done.
  apply (rep_getCursor fuel _ _ _ _ _ Hrep').
  rewrite length_app in Hfuel. lia.
Qed.

Lemma moveCursorBackwardWord_start_of_word_witness :
  buffer_rep (example_buffer "ab cd  " "ef") "000"
    (lit "ab " ++ lit "cd" ++ lit "  ") (lit "ef") [] ∧
  ∃ b', moveCursorBackwardWord 8 (example_buffer "ab cd  " "ef") = Done b' ∧
        buffer_rep b' "000" (lit "ab ") (lit "cd" ++ lit "  " ++ lit "ef") [] ∧
        getCursor 8 b' = Done (Z.of_nat (length (lit "ab "))).
Proof.
  split; [apply (example_buffer_rep "ab cd  " "ef")|].
  apply (moveCursorBackwardWord_start_of_word _ _ (lit "ab ") (lit "cd")
           (lit "  ") _ _ 8 (example_buffer_rep "ab cd  " "ef"));
    try done.
  simpl. lia.
Defined.

Lemma prefix_before_delims (l' k w ws : cstring) d :
  l' ++ k = w ++ ws →
  forallb is_word_char w = true → forallb is_delim ws = true →
  is_delim (List.last l' d) = false →
  forallb is_word_char l' = true.
Proof.
  intros E Hw Hws Hlast.
  apply app_eq_app in E as [m [[-> ->]|[-> ->]]].
  - destruct m as [|c m _] using rev_ind; [by rewrite app_nil_r|].
    rewrite app_assoc, last_last in Hlast.
    rewrite !forallb_app in Hws. simpl in Hws.
    apply andb_prop in Hws as [[_ [Hc _]%andb_prop]%andb_prop _].
    congruence.
  - rewrite forallb_app in Hw. by apply andb_prop in Hw as [? _].
Qed.

Lemma backward_keeps_prefix d clip l fuel b b' :
  (∃ l' r', buffer_rep b d l' r' clip ∧ ∃ k, l = l' ++ k) →
  moveCursorBackward fuel b = Done b' →
  ∃ l' r', buffer_rep b' d l' r' clip ∧ ∃ k, l = l' ++ k.
Proof.
  intros (l' & r' & Hrep & k & ->) Hrun.
  destruct (rep_backward_any _ _ _ _ _ _ _ Hrep Hrun)
    as (l'' & r'' & Hrep' & k' & ->).
  exists l'', r''. split; [done|]. exists (k' ++ k). by rewrite app_assoc.
Qed.

(** X13: where no word with a delimiter before it is to the left of the
    cursor, [moveCursorBackwardWord()] does not return: this is so where
    only delimiters (or nothing) are to the left of the cursor, whatever
    the dummy cell holds, and in or after the first word of the text when
    the dummy cell holds a character that is not a delimiter. *)
Theorem moveCursorBackwardWord_runs_for_ever (b : EditorBuffer) (d : ascii)
    (w ws r clip : cstring) (fuel : nat) :
  buffer_rep b d (w ++ ws) r clip →
  forallb is_word_char w = true → forallb is_delim ws = true →
  w = [] ∨ is_word_char d = true →
  moveCursorBackwardWord fuel b = OutOfFuel.
Proof.
  intros Hrep Hw Hws Hcase. unfold moveCursorBackwardWord.
  destruct (is_delim d) eqn:Hd.
  - destruct Hcase as [->|Hwd]; [|unfold is_word_char in Hwd; by rewrite Hd in Hwd].
    rewrite (scan_backward_spins is_delim left_is_delim d clip
               (λ b l r, rep_left_is_delim b d l r clip) fuel fuel b ws r);
      done.
  - set (I := λ s : EditorBuffer,
              ∃ l' r', buffer_rep s d l' r' clip ∧ ∃ k, w ++ ws = l' ++ k).
    assert (HI : I b) by (exists (w ++ ws), r; split; [done|]; exists [];
                          by rewrite app_nil_r).
    assert (Hnf : while fuel left_is_delim (moveCursorBackward fuel) b
                  ≠ Fault).
    { apply (while_no_fault I); [| |done].
      - intros s (l' & r' & Hs & _).
        rewrite (rep_left_is_delim _ _ _ _ _ Hs). eauto.
      - intros s Hs _. split.
        + destruct Hs as (l' & r' & Hs & _).
          apply moveCursorBackward_no_fault. by eexists _, _, _, _.
        + intros s'. by apply backward_keeps_prefix. }
    destruct (while fuel left_is_delim (moveCursorBackward fuel) b)
      as [b1| |] eqn:Hrun; try done.
    cbn [bind].
    pose proof (while_exit_cond _ _ _ _ _ Hrun) as Hexit.
    assert (HI1 : I b1).
    { revert Hrun. apply (while_preserves I); [|done].
      intros s s' Hs _. by apply backward_keeps_prefix. }
    destruct HI1 as (l' & r' & Hrep1 & k & E).
    rewrite (rep_left_is_delim _ _ _ _ _ Hrep1) in Hexit.
    injection Hexit as Hlast.
    apply (scan_backward_spins is_word_char left_is_word d clip
             (λ b l r, rep_left_is_word b d l r clip) fuel fuel b1 l' r');
      [done | | unfold is_word_char; by rewrite Hd].
    by apply (prefix_before_delims l' k w ws d).
Qed.

Lemma moveCursorBackwardWord_runs_for_ever_witness :
  buffer_rep (example_buffer "ab  " "cd") "000" (lit "ab" ++ lit "  ")
    (lit "cd") [] ∧
  moveCursorBackwardWord 9 (example_buffer "ab  " "cd") = OutOfFuel.
Proof.
  split; [apply (example_buffer_rep "ab  " "cd")|].
  apply (moveCursorBackwardWord_runs_for_ever _ _ (lit "ab") (lit "  ") _ _ 9
           (example_buffer_rep "ab  " "cd")); try done.
  by right.
Defined.

(** X14: from a cursor inside a word (or at its start) that has a
    delimiter before it, [moveCursorForwardWord()] followed by
    [moveCursorBackwardWord()] leaves the cursor at the start of that
    word, not where it was. *)
Theorem forward_word_then_backward_word (b : EditorBuffer) (d : ascii)
    (l1 w1 w2 rest clip : cstring) (fuel : nat) :
  buffer_rep b d (l1 ++ w1) (w2 ++ rest) clip →
  is_delim (List.last l1 d) = true →
  forallb is_word_char w1 = true →
  w2 ≠ [] → forallb is_word_char w2 = true →
  run is_word_char rest = [] →
  (length (l1 ++ w1) + length (w2 ++ rest) < fuel)%nat →
  ∃ b1 b2,
    moveCursorForwardWord fuel b = Done b1 ∧
    buffer_rep b1 d (l1 ++ w1 ++ w2) rest clip ∧
    moveCursorBackwardWord fuel b1 = Done b2 ∧
    buffer_rep b2 d l1 (w1 ++ w2 ++ rest) clip.
Proof.
  intros Hrep Hl1 Hw1 Hne Hw2 Hrest Hfuel.
  rewrite !length_app in Hfuel.
  destruct (rep_moveCursorForwardWord fuel _ _ _ _ _ Hrep)
    as (b1 & Hrun1 & Hrep1); [rewrite length_app; lia|].
  destruct (next_word_parts [] w2 rest) as [Hword Hafter]; try done.
  simpl in Hword, Hafter. rewrite Hword, Hafter, <- app_assoc in Hrep1.
  destruct (rep_moveCursorBackwardWord fuel b1 d l1 (w1 ++ w2) [] rest clip)
    as (b2 & Hrun2 & Hrep2).
  - by rewrite app_nil_r.
  - by destruct w1.
  - rewrite forallb_app. by rewrite Hw1, Hw2.
  - done.
  - done.
  - rewrite !length_app. simpl. lia.
  - exists b1, b2. split_and!; try done.
    by rewrite <- app_assoc in Hrep2.
Qed.

Lemma forward_word_then_backward_word_witness :
  buffer_rep (example_buffer "ab cd" "ef gh") "000" (lit "ab " ++ lit "cd")
    (lit "ef" ++ lit " gh") [] ∧
  ∃ b1 b2,
    moveCursorForwardWord 11 (example_buffer "ab cd" "ef gh") = Done b1 ∧
    buffer_rep b1 "000" (lit "ab " ++ lit "cd" ++ lit "ef") (lit " gh") [] ∧
    moveCursorBackwardWord 11 b1 = Done b2 ∧
    buffer_rep b2 "000" (lit "ab ") (lit "cd" ++ lit "ef" ++ lit " gh") [].
Proof.
  split; [apply (example_buffer_rep "ab cd" "ef gh")|].
  apply (forward_word_then_backward_word _ _ (lit "ab ") (lit "cd") (lit "ef")
           (lit " gh") _ 11 (example_buffer_rep "ab cd" "ef gh"));
    try done.
  simpl. lia.
Defined.

(** ** copyWords, in general *)

Lemma copy_words_all n : ∀ s, (length s ≤ n)%nat → copy_words n s = s.
Proof.
  induction n as [|n IH]; intros s Hlen.
  - by destruct s; [|simpl in Hlen; lia].
  - cbn [copy_words]. destruct s as [|c s]; [by rewrite copy_words_nil|].
    rewrite IH; [apply next_word_after|].
    pose proof (after_word_shorter c s). lia.
Qed.

(* the copy ends where a word ends *)
Lemma copy_words_rest n : ∀ s,
  ∃ rest, s = copy_words (S n) s ++ rest ∧
          ∀ c, head rest = Some c → is_delim c = true.
Proof.
  induction n as [|n IH]; intros s.
  - destruct (word_parts s) as (ws & w & rest & Hs & Hn & Ha & _ & _ & Hh & _).
    exists rest. cbn [copy_words]. rewrite app_nil_r, Hn.
    split; [by rewrite <- app_assoc | done].
  - destruct (IH (after_word s)) as (rest & Hs & Hh).
    exists rest. split; [|done].
    change (copy_words (S (S n)) s)
      with (next_word s ++ copy_words (S n) (after_word s)).
    by rewrite <- app_assoc, <- Hs, next_word_after.
Qed.

(** X15: [copyWords(nWords)] changes only the clipboard, and sets it to
    the text from the cursor through the end of the [nWords]-th word to
    the right of the cursor, each word with the delimiters before it:
    nothing for [nWords <= 0]; all of the text to the right of the cursor,
    delimiters at its end included, when it has fewer than [nWords] words
    (when it has no word at all, and when [nWords] is at least its
    length); what stays uncopied is empty or starts with a delimiter. *)
Theorem copyWords_copies_a_prefix (b : EditorBuffer) (d : ascii)
    (l r clip : cstring) (nWords : Z) (fuel : nat) :
  buffer_rep b d l r clip →
  Z.of_nat (length r) ≤ INT_MAX →
  (length r + 1 < fuel)%nat →
  ∃ copied rest,
    copyWords fuel nWords b = Done (with_copyString b copied) ∧
    copied = copy_words (Z.to_nat nWords) r ∧
    r = copied ++ rest ∧
    (nWords ≤ 0 → copied = []) ∧
    (1 ≤ nWords → ∀ c, head rest = Some c → is_delim c = true) ∧
    (Z.of_nat (length r) ≤ nWords → copied = r) ∧
    (1 ≤ nWords → forallb is_delim r = true → copied = r) ∧
    (∀ ws w blocks tail,
       r = ws ++ w ++ words_text blocks ++ tail →
       forallb is_delim ws = true →
       w ≠ [] → forallb is_word_char w = true →
       Forall word_block blocks →
       run is_word_char tail = [] →
       (nWords = 1 + Z.of_nat (length blocks) →
        copied = ws ++ w ++ words_text blocks) ∧
       (1 + Z.of_nat (length blocks) < nWords →
        forallb is_delim tail = true → copied = r)).
Proof.
  intros Hrep Hsize Hfuel.
  assert (Hsize' : Z.of_nat (length r) ≤ SIZE_MAX)
    by (unfold INT_MAX, SIZE_MAX in *; lia).
  pose proof (rep_copyWords fuel nWords _ _ _ _ _ Hrep Hfuel Hsize') as Hrun.
  assert (Hparts : ∃ rest,
            r = copy_words (Z.to_nat nWords) r ++ rest ∧
            (1 ≤ nWords → ∀ c, head rest = Some c → is_delim c = true)).
  { destruct (decide (1 ≤ nWords)) as [Hpos|Hneg].
    - destruct (copy_words_rest (Z.to_nat (nWords - 1)) r)
        as (rest & Hr & Hh).
      replace (S (Z.to_nat (nWords - 1))) with (Z.to_nat nWords) in Hr by lia.
      by exists rest.
    - exists r. replace (Z.to_nat nWords) with O by lia. split; [done|lia]. }
  destruct Hparts as (rest & Hr & Hh).
  exists (copy_words (Z.to_nat nWords) r), rest.
  split; [done|]. split; [done|]. split; [done|]. split_and!.
  - intros Hn. by replace (Z.to_nat nWords) with O by lia.
  - done.
  - intros Hall. apply copy_words_all. lia.
  - intros Hn Hdelims.
    replace (Z.to_nat nWords) with (S (Z.to_nat (nWords - 1))) by lia.
    by apply copy_words_delims.
  - intros ws w blocks tail -> Hws Hne Hw Hblocks Htail.
    destruct (copy_words_through ws w tail blocks (Z.to_nat nWords))
      as [Hexact Hbeyond]; try done.
    split.
    + intros Hlast. apply Hexact. lia.
    + intros Hmore Hdelims. apply Hbeyond; [lia | done].
Qed.

Lemma copyWords_copies_a_prefix_witness :
  buffer_rep (example_buffer "ab" " cd ef gh") "000" (lit "ab")
    (lit " cd ef gh") [] ∧
  Z.of_nat (length (lit " cd ef gh")) ≤ INT_MAX ∧
  ∃ copied rest,
    copyWords 11 2 (example_buffer "ab" " cd ef gh")
    = Done (with_copyString (example_buffer "ab" " cd ef gh") copied) ∧
    copied = copy_words (Z.to_nat 2) (lit " cd ef gh") ∧
    lit " cd ef gh" = copied ++ rest ∧
    (2 ≤ 0 → copied = []) ∧
    (1 ≤ 2 → ∀ c, head rest = Some c → is_delim c = true) ∧
    (Z.of_nat (length (lit " cd ef gh")) ≤ 2 → copied = lit " cd ef gh") ∧
    (1 ≤ 2 → forallb is_delim (lit " cd ef gh") = true →
     copied = lit " cd ef gh") ∧
    (∀ ws w blocks tail,
       lit " cd ef gh" = ws ++ w ++ words_text blocks ++ tail →
       forallb is_delim ws = true →
       w ≠ [] → forallb is_word_char w = true →
       Forall word_block blocks →
       run is_word_char tail = [] →
       (2 = 1 + Z.of_nat (length blocks) →
        copied = ws ++ w ++ words_text blocks) ∧
       (1 + Z.of_nat (length blocks) < 2 →
        forallb is_delim tail = true → copied = lit " cd ef gh")).
Proof.
  assert (Hsize : Z.of_nat (length (lit " cd ef gh")) ≤ INT_MAX)
    by (unfold INT_MAX; simpl; lia).
  split; [apply (example_buffer_rep "ab" " cd ef gh")|].
  split; [exact Hsize|].
  apply (copyWords_copies_a_prefix _ _ _ _ _ 2 11
           (example_buffer_rep "ab" " cd ef gh") Hsize).
  simpl. lia.
Defined.

(** ** What the methods that move the cursor or copy leave alone *)

Lemma forward_moves_cursor_only b b' :
  moveCursorForward b = Done b' → ∃ p, b' = with_cursor b p.
Proof.
  unfold moveCursorForward. intros (c & _ & Hrun)%bind_Done.
  case_bool_decide; injection Hrun as <-; [by eexists|].
  exists (cursor b). by rewrite with_cursor_same.
Qed.

Lemma backward_moves_cursor_only fuel b b' :
  moveCursorBackward fuel b = Done b' → ∃ p, b' = with_cursor b p.
Proof.
  unfold moveCursorBackward. case_bool_decide.
  - intros (cp & _ & [= <-])%bind_Done. by eexists.
  - intros [= <-]. exists (cursor b). by rewrite with_cursor_same.
Qed.

Lemma loop_moves_cursor_only b cond body fuel b' :
  (∀ s s', body s = Done s' → ∃ p, s' = with_cursor s p) →
  while fuel cond body b = Done b' → ∃ p, b' = with_cursor b p.
Proof.
  intros Hbody.
  apply (while_preserves (λ s, ∃ p, s = with_cursor b p)).
  - intros s s' [p ->] _ [q ->]%Hbody. by exists q.
  - exists (cursor b). by rewrite with_cursor_same.
Qed.

(** X16: a method that moves the cursor changes, if it returns, only the
    [cursor] field, clipboard included in what it keeps, and [copy] and
    [copyWords] change only the clipboard, cursor included in what they
    keep: in whatever state the buffer is, they write no cell, free none
    and allocate none, and [getText()] returns what it returned before. *)
Theorem navigation_and_copy_write_nothing (fuel : nat) (m : method)
    (b b' : EditorBuffer) :
  read_only m = true →
  call fuel m b = Done b' →
  match m with
  | Copy _ | CopyWords _ => ∃ s, b' = with_copyString b s
  | _ => ∃ p, b' = with_cursor b p
  end ∧
  heap b' = heap b ∧ start b' = start b ∧
  ∀ fuel', getText fuel' b' = getText fuel' b.
Proof.
  intros Hm Hcall.
  assert (Hshape : match m with
                   | Copy _ | CopyWords _ => ∃ s, b' = with_copyString b s
                   | _ => ∃ p, b' = with_cursor b p
                   end).
  { destruct m; try done; simpl in Hcall.
    - by apply forward_moves_cursor_only.
    - apply bind_Done in Hcall as (b1 & Hrun1 & Hrun2).
      apply loop_moves_cursor_only in Hrun1 as [p ->];
        [|apply forward_moves_cursor_only].
      apply loop_moves_cursor_only in Hrun2 as [q ->];
        [|apply forward_moves_cursor_only].
      by exists q.
    - by eapply backward_moves_cursor_only.
    - apply bind_Done in Hcall as (b1 & Hrun1 & Hrun2).
      apply loop_moves_cursor_only in Hrun1 as [p ->];
        [|apply backward_moves_cursor_only].
      apply loop_moves_cursor_only in Hrun2 as [q ->];
        [|apply backward_moves_cursor_only].
      by exists q.
    - injection Hcall as <-. by eexists.
    - revert Hcall. apply loop_moves_cursor_only.
      intros s s' (c & _ & [= <-])%bind_Done. by eexists.
    - apply bind_Done in Hcall as (text & _ & (s & _ & [= <-])%bind_Done).
      by eexists.
    - apply bind_Done in Hcall
        as (text & _ & ([n i] & _ & (s & _ & [= <-])%bind_Done)%bind_Done).
      by eexists. }
  split; [done|]. by destruct m; try done; destruct Hshape as [x ->].
Qed.

Lemma navigation_and_copy_write_nothing_witness :
  read_only (Copy 1) = true ∧
  call 5 (Copy 1) (example_buffer "ab" "cd")
  = Done (with_copyString (example_buffer "ab" "cd") (lit "c")) ∧
  (∃ s, with_copyString (example_buffer "ab" "cd") (lit "c")
        = with_copyString (example_buffer "ab" "cd") s) ∧
  heap (with_copyString (example_buffer "ab" "cd") (lit "c"))
  = heap (example_buffer "ab" "cd").
Proof.
  assert (Hcall : call 5 (Copy 1) (example_buffer "ab" "cd")
                  = Done (with_copyString (example_buffer "ab" "cd") (lit "c")))
    by (vm_compute; reflexivity).
  split; [done|]. split; [exact Hcall|].
  pose proof (navigation_and_copy_write_nothing 5 (Copy 1)
                (example_buffer "ab" "cd") _ eq_refl Hcall) as (Hs & Hh & _).
  split; [exact Hs | exact Hh].
Defined.

(** ** The free store: no garbage, and what the destructor leaves *)

Lemma no_garbage_cells b before cur after :
  buffer_cells b before cur after →
  no_garbage b ↔ size (heap b) = length (before ++ cur :: after).
Proof.
  intros [_ Hch _]. split.
  - intros (xs & Hxs & Hsize). by rewrite (lseg_unique _ _ _ _ Hch Hxs).
  - intros Hsize. by exists (before ++ cur :: after).
Qed.

Lemma insert_sound c b b' : sound b → insertCharacter c b = Done b' → sound b'.
Proof.
  intros [Hwf Hng] Hrun. split; [by eapply insert_well_formed|].
  destruct Hwf as (d & l & r & clip & before & cur & after & Hcells & _).
  destruct (cells_insert c _ _ _ _ Hcells) as (b1 & p & Hrun1 & Hcells1 & _).
  rewrite Hrun in Hrun1. injection Hrun1 as <-.
  apply (no_garbage_cells _ _ _ _ Hcells1).
  rewrite (insert_size _ _ _ _ _ _ Hcells Hrun).
  apply (no_garbage_cells _ _ _ _ Hcells) in Hng. rewrite Hng.
  rewrite !length_app. simpl. lia.
Qed.

Lemma delete_sound b b' : sound b → deleteCharacter b = Done b' → sound b'.
Proof.
  intros [Hwf Hng] Hrun. split; [by eapply delete_well_formed|].
  destruct Hwf as (d & l & r & clip & before & cur & after & Hcells & _).
  destruct after as [|x after].
  - rewrite (cells_delete_end _ _ _ Hcells) in Hrun. by injection Hrun as <-.
  - destruct (cells_delete _ _ _ _ _ Hcells) as (b1 & Hrun1 & Hcells1 & _).
    rewrite Hrun in Hrun1. injection Hrun1 as <-.
    apply (no_garbage_cells _ _ _ _ Hcells1).
    pose proof (delete_size _ _ _ _ _ _ Hcells Hrun) as Hsize.
    apply (no_garbage_cells _ _ _ _ Hcells) in Hng.
    rewrite !length_app in *. simpl in *. lia.
Qed.

Lemma insertString_sound fuel str b b' :
  sound b → insertString fuel str b = Done b' → sound b'.
Proof.
  intros Hs ([i b1] & Hrun & Hret)%bind_Done. injection Hret as <-.
  revert Hrun.
  apply (for_loop_preserves (λ s : Z * EditorBuffer, sound s.2)); [| |done].
  - intros [i0 b0] s' _ _ (c & _ & (b2 & _ & Hb)%bind_Done)%bind_Done.
    done.
  - intros [i0 b0] [i1' b1'] s'' Hs0 _
      (c & _ & (b2 & Hins & Hb)%bind_Done)%bind_Done Hincr.
    injection Hb as <- <-. injection Hincr as <-. simpl in *.
    by eapply insert_sound.
Qed.

Lemma read_only_sound fuel m b b' :
  read_only m = true → sound b → call fuel m b = Done b' → sound b'.
Proof.
  intros Hm [Hwf (xs & Hxs & Hsize)] Hcall.
  split; [by eapply call_well_formed|].
  exists xs.
  assert (heap b' = heap b ∧ start b' = start b) as [-> ->]; [|done].
  destruct m; try done; simpl in Hcall.
  - by apply forward_moves_cursor_only in Hcall as [p ->].
  - apply bind_Done in Hcall as (b1 & Hrun1 & Hrun2).
    apply loop_moves_cursor_only in Hrun1 as [p ->];
      [|apply forward_moves_cursor_only].
    by apply loop_moves_cursor_only in Hrun2 as [q ->];
      [|apply forward_moves_cursor_only].
  - by apply backward_moves_cursor_only in Hcall as [p ->].
  - apply bind_Done in Hcall as (b1 & Hrun1 & Hrun2).
    apply loop_moves_cursor_only in Hrun1 as [p ->];
      [|apply backward_moves_cursor_only].
    by apply loop_moves_cursor_only in Hrun2 as [q ->];
      [|apply backward_moves_cursor_only].
  - by injection Hcall as <-.
  - apply loop_moves_cursor_only in Hcall as [p ->]; [done|].
    intros s s' (c & _ & [= <-])%bind_Done. by eexists.
  - by apply bind_Done in Hcall
      as (text & _ & (s & _ & [= <-])%bind_Done).
  - by apply bind_Done in Hcall
      as (text & _ & ([n i] & _ & (s & _ & [= <-])%bind_Done)%bind_Done).
Qed.

Lemma call_sound fuel m b b' : sound b → call fuel m b = Done b' → sound b'.
Proof.
  intros Hs Hcall. destruct (read_only m) eqn:Hm.
  { by eapply read_only_sound. }
  destruct m; try done; simpl in Hcall.
  - by eapply insert_sound.
  - by eapply insertString_sound.
  - by eapply insertString_sound.
  - by eapply delete_sound.
  - apply bind_Done in Hcall as (b1 & Hrun1 & Hrun2).
    eapply (while_preserves sound); [| |exact Hrun2].
    + intros ????. by apply delete_sound.
    + eapply (while_preserves sound); [| |exact Hrun1]; [|done].
      intros ????. by apply delete_sound.
Qed.

Lemma reachable_sound b : reachable b → sound b.
Proof.
  induction 1 as [junk | fuel m b b' _ IH Hcall].
  - split; [exists junk, [], [], []; apply rep_new|].
    exists [(new_Cell ∅, junk)]. split.
    + simpl. split; [done|]. exists None. by rewrite lookup_singleton_eq.
    + simpl. by rewrite map_size_singleton.
  - by eapply call_sound.
Qed.

(** X17: in every state that the methods bring a buffer into, the free
    store holds one cell for each character of the text and the dummy
    cell, and no other: no method leaks a cell or keeps one it freed. *)
Theorem no_cell_leaks (b : EditorBuffer) :
  reachable b →
  ∃ text,
    (∀ fuel, (length text < fuel)%nat → getText fuel b = Done text) ∧
    size (heap b) = S (length text).
Proof.
  intros [(d & l & r & clip & Hrep) Hng]%reachable_sound.
  exists (l ++ r). split.
  - intros fuel Hfuel. apply (rep_getText fuel _ _ _ _ _ Hrep).
    rewrite length_app in Hfuel. lia.
  - destruct Hrep as (before & cur & after & Hcells & Hl & Hr & _).
    apply (no_garbage_cells _ _ _ _ Hcells) in Hng. rewrite Hng.
    rewrite !length_app, (rep_lengths _ _ _ _ Hl), <- Hr, length_fmap.
    simpl. lia.
Qed.

Lemma no_cell_leaks_witness :
  reachable (example_buffer "ab" "cd") ∧
  ∃ text,
    (∀ fuel, (length text < fuel)%nat →
       getText fuel (example_buffer "ab" "cd") = Done text) ∧
    size (heap (example_buffer "ab" "cd")) = S (length text).
Proof.
  split; [apply example_buffer_reachable|].
  apply no_cell_leaks, example_buffer_reachable.
Defined.

Lemma destroy_loop fuel : ∀ xs p (h : gmap addr Cell),
  lseg h p xs None → size h = length xs → (length xs < fuel)%nat →
  while fuel
    (λ '(cp, _), Done (bool_decide (cp ≠ None)))
    (λ '(cp, h), do c <- deref h cp;
                 let next := link c in
                 do h' <- delete_Cell h cp;
                 Done (next, h'))
    (p, h)
  = Done (None, ∅).
Proof.
  induction fuel as [|fuel IH]; intros xs p h Hch Hsize Hfuel; [lia|].
  pose proof (lseg_NoDup _ _ _ Hch) as Hnd.
  destruct xs as [|x xs]; simpl in Hch.
  - subst p. simpl. by rewrite (map_size_empty_inv h).
  - destruct Hch as (-> & n & Hx & Hch). cbn [while bind].
    rewrite bool_decide_true by done. cbn [deref delete_Cell].
    rewrite Hx. cbn [bind link].
    rewrite fmap_cons in Hnd. apply NoDup_cons in Hnd as [Hnin _].
    apply (IH xs).
    + by apply lseg_delete_ne.
    + rewrite map_size_delete_Some by (by rewrite Hx).
      simpl in Hsize. lia.
    + simpl in Hfuel. lia.
Qed.

(** X18: the destructor, run in any state that the methods bring a
    buffer into, returns, frees every cell once and leaves the free
    store empty. *)
Theorem destructor_frees_all (b : EditorBuffer) (fuel : nat) :
  reachable b →
  (size (heap b) < fuel)%nat →
  EditorBuffer_delete fuel b = Done ∅.
Proof.
  intros [_ (xs & Hxs & Hsize)]%reachable_sound Hfuel.
  unfold EditorBuffer_delete.
  rewrite (destroy_loop fuel xs); [done..|lia].
Qed.

Lemma destructor_frees_all_witness :
  reachable (example_buffer "ab" "cd") ∧
  (size (heap (example_buffer "ab" "cd")) < 6)%nat ∧
  EditorBuffer_delete 6 (example_buffer "ab" "cd") = Done ∅.
Proof.
  assert (Hsize : (size (heap (example_buffer "ab" "cd")) < 6)%nat)
    by (vm_compute; lia).
  split; [apply example_buffer_reachable|]. split; [exact Hsize|].
  exact (destructor_frees_all _ 6 (example_buffer_reachable "ab" "cd") Hsize).
Defined.

(** ** No method faults *)

Lemma char_at_in_range (str : cstring) i :
  0 ≤ i < Z.of_nat (length str) → ∃ c, char_at str i = Done c.
Proof.
  intros Hi. unfold char_at.
  rewrite (proj2 (Z.leb_le _ _)), (proj2 (Z.ltb_lt _ _)) by lia. simpl.
  destruct (lookup_lt_is_Some_2 str (Z.to_nat i)) as [c ->]; [lia|].
  by exists c.
Qed.

Lemma substr_from_0_no_fault (str : cstring) n : substr str 0 n ≠ Fault.
Proof.
  unfold substr. by rewrite (proj2 (Z.ltb_ge _ _)) by lia.
Qed.

Lemma forward_no_fault b : well_formed b → moveCursorForward b ≠ Fault.
Proof.
  intros (d & l & [|c r] & clip & Hrep).
  - by rewrite (rep_forward_end _ _ _ _ Hrep).
  - by destruct (rep_forward _ _ _ _ _ _ Hrep) as (b' & -> & _).
Qed.

Lemma delete_no_fault b : well_formed b → deleteCharacter b ≠ Fault.
Proof.
  intros (d & l & [|c r] & clip & Hrep).
  - by rewrite (rep_delete_end _ _ _ _ Hrep).
  - by destruct (rep_delete _ _ _ _ _ _ Hrep) as (b' & -> & _).
Qed.

Lemma insert_no_fault c b : well_formed b → insertCharacter c b ≠ Fault.
Proof.
  intros (d & l & r & clip & Hrep).
  by destruct (rep_insert c _ _ _ _ _ Hrep) as (b' & -> & _).
Qed.

(* two loops in a row over buffers that hold a text *)
Lemma scans_no_fault cond1 cond2 body fuel b :
  (∀ s, well_formed s → ∃ c, cond1 s = Done c) →
  (∀ s, well_formed s → ∃ c, cond2 s = Done c) →
  (∀ s, well_formed s →
        body s ≠ Fault ∧ ∀ s', body s = Done s' → well_formed s') →
  well_formed b →
  (do b1 <- while fuel cond1 body b; while fuel cond2 body b1) ≠ Fault.
Proof.
  intros Hc1 Hc2 Hbody Hwf. apply bind_no_fault.
  - apply (while_no_fault well_formed); [done | | done].
    intros s Hs _. by apply Hbody.
  - intros b1 Hrun.
    apply (while_no_fault well_formed); [done | |].
    + intros s Hs _. by apply Hbody.
    + revert Hrun. apply (while_preserves well_formed); [|done].
      intros s s' Hs _. by apply Hbody.
Qed.

Lemma right_tests_return b :
  well_formed b →
  (∃ c, right_is_delim b = Done c) ∧ (∃ c, right_is_word b = Done c).
Proof.
  intros (d & l & r & clip & Hrep).
  rewrite (rep_right_is_delim _ _ _ _ _ Hrep),
    (rep_right_is_word _ _ _ _ _ Hrep). eauto.
Qed.

Lemma left_tests_return b :
  well_formed b →
  (∃ c, left_is_delim b = Done c) ∧ (∃ c, left_is_word b = Done c).
Proof.
  intros (d & l & r & clip & Hrep).
  rewrite (rep_left_is_delim _ _ _ _ _ Hrep),
    (rep_left_is_word _ _ _ _ _ Hrep). eauto.
Qed.

Lemma to_end_no_fault fuel b : well_formed b → moveCursorToEnd fuel b ≠ Fault.
Proof.
  intros Hwf. unfold moveCursorToEnd.
  apply (while_no_fault well_formed); [| |done].
  - intros s (d & l & r & clip & Hrep).
    destruct (rep_cursor_link _ _ _ _ _ Hrep) as (c & -> & _). simpl. eauto.
  - intros s Hs (c & Hc & [= Hlink%bool_decide_eq_true])%bind_Done.
    rewrite Hc. simpl. split; [done|]. intros s' [= <-].
    eapply forward_well_formed; [done|].
    by apply forward_is_link_step.
Qed.

Lemma insertString_no_fault fuel str b :
  well_formed b → insertString fuel str b ≠ Fault.
Proof.
  intros Hwf. unfold insertString. apply bind_no_fault.
  - apply (for_loop_no_fault
             (λ s : Z * EditorBuffer, 0 ≤ s.1 ∧ well_formed s.2));
      [|by simpl].
    intros [i s] [Hi Hs] Hlt%Z.ltb_lt. simpl in Hi, Hs.
    destruct (char_at_in_range str i) as [c Hc]; [lia|]. rewrite Hc.
    cbn [bind].
    pose proof (insert_no_fault c s Hs) as Hnf.
    destruct (insertCharacter c s) as [s1| |] eqn:Hins; try done.
    cbn [bind]. split; [done|]. intros [i' s'] [= <- <-].
    split; [done|]. intros s'' [= <-]. simpl.
    split; [lia | by eapply insert_well_formed].
  - by intros [i s] _.
Qed.

Lemma getText_from_cursor_no_fault fuel b :
  well_formed b → getText_from fuel (cursor b) b ≠ Fault.
Proof.
  intros (d & l & r & clip & before & cur & after & Hcells & _).
  destruct (decide (length after < fuel)%nat) as [Hlt|Hge].
  { by rewrite (cells_getText_from_cursor fuel _ _ _ _ Hcells). }
  pose proof (cells_getText_from_cursor (S (length after)) _ _ _ _ Hcells)
    as Hrun.
  unfold getText_from in *. rewrite (cursor_cell _ _ _ _ Hcells) in *.
  cbn [bind] in *. apply bind_no_fault; [|by intros []].
  eapply (for_loop_fuel_no_fault _ _ _ _ (S (length after))); [lia|].
  intros Hf. rewrite Hf in Hrun. specialize (Hrun ltac:(lia)). done.
Qed.

Lemma copy_no_fault fuel nChars b :
  well_formed b → copy fuel nChars b ≠ Fault.
Proof.
  intros Hwf. unfold copy. apply bind_no_fault.
  - by apply getText_from_cursor_no_fault.
  - intros text _. apply bind_no_fault; [apply substr_from_0_no_fault|done].
Qed.

Lemma copyWords_no_fault fuel nWords b :
  well_formed b → copyWords fuel nWords b ≠ Fault.
Proof.
  intros Hwf. unfold copyWords. apply bind_no_fault.
  { by apply getText_from_cursor_no_fault. }
  intros charString _. cbv zeta. apply bind_no_fault.
  - apply (while_no_fault (λ s : Z * Z, 0 ≤ s.2)); [| |by simpl].
    + intros [n i] _. eauto.
    + intros [n i] Hi _. simpl in Hi.
      set (loop1 := for_loop fuel _ _ _ i).
      assert (H1 : loop1 ≠ Fault ∧ ∀ i1, loop1 = Done i1 → 0 ≤ i1).
      { split.
        - apply (for_loop_no_fault (λ j : Z, 0 ≤ j)); [|done].
          intros j Hj Hlt%Z.ltb_lt.
          destruct (char_at_in_range charString j) as [c ->]; [lia|].
          cbn [bind].
          destruct (bool_decide (c = SPACE) || bool_decide (c = NEWLINE)).
          + split; [done|]. intros j' [= <-]. split; [done|].
            intros j'' [= <-]. lia.
          + split; [done|]. by intros j' [=].
        - intros i1. apply (for_loop_preserves (λ j : Z, 0 ≤ j)); [| |done].
          + intros j j' Hj _ (c & _ & Hb)%bind_Done.
            destruct (bool_decide (c = SPACE) || bool_decide (c = NEWLINE));
              [done | by injection Hb as <-].
          + intros j j' j'' Hj _ (c & _ & Hb)%bind_Done [= <-].
            destruct (bool_decide (c = SPACE) || bool_decide (c = NEWLINE));
              [|done].
            injection Hb as <-. lia. }
      destruct H1 as [Hnf1 Hpos1].
      destruct loop1 as [i1| |]; try done. cbn [bind].
      specialize (Hpos1 i1 eq_refl).
      set (loop2 := for_loop fuel _ _ _ (n, i1)).
      assert (H2 : loop2 ≠ Fault ∧ ∀ s, loop2 = Done s → 0 ≤ s.2).
      { split.
        - apply (for_loop_no_fault (λ s : Z * Z, 0 ≤ s.2)); [|done].
          intros [m j] Hj Hlt%Z.ltb_lt. simpl in Hj.
          destruct (char_at_in_range charString j) as [c ->]; [lia|].
          cbn [bind].
          destruct (bool_decide (c = SPACE) || bool_decide (c = NEWLINE)).
          + split; [done|]. by intros s' [=].
          + split; [done|]. intros s' [= <-]. split; [done|].
            intros s'' [= <-]. simpl. lia.
        - intros s. apply (for_loop_preserves (λ s : Z * Z, 0 ≤ s.2));
            [| |done].
          + intros [m j] s' Hj _ (c & _ & Hb)%bind_Done. simpl in *.
            destruct (bool_decide (c = SPACE) || bool_decide (c = NEWLINE));
              [by injection Hb as <- | done].
          + intros [m j] s' s'' Hj _ (c & _ & Hb)%bind_Done. simpl in *.
            destruct (bool_decide (c = SPACE) || bool_decide (c = NEWLINE));
              [done|].
            injection Hb as <-. intros [= <-]. simpl. lia. }
      destruct H2 as [Hnf2 Hpos2].
      destruct loop2 as [[n2 i2]| |]; try done. cbn [bind].
      specialize (Hpos2 _ eq_refl). simpl in Hpos2.
      destruct (i2 =? Z.of_nat (length charString));
        (split; [done|]); by intros s' [= <-].
  - intros [n i] _. apply bind_no_fault; [apply substr_from_0_no_fault|done].
Qed.

Lemma call_no_fault fuel m b : well_formed b → call fuel m b ≠ Fault.
Proof.
  intros Hwf. destruct m; simpl.
  - by apply forward_no_fault.
  - apply scans_no_fault; try done.
    + intros s Hs. by apply right_tests_return.
    + intros s Hs. by apply right_tests_return.
    + intros s Hs. split; [by apply forward_no_fault|].
      intros s'. by apply forward_well_formed.
  - by apply moveCursorBackward_no_fault.
  - apply scans_no_fault; try done.
    + intros s Hs. by apply left_tests_return.
    + intros s Hs. by apply left_tests_return.
    + intros s Hs. split; [by apply moveCursorBackward_no_fault|].
      intros s'. by apply backward_well_formed.
  - done.
  - by apply to_end_no_fault.
  - by apply insert_no_fault.
  - by apply insertString_no_fault.
  - by apply copy_no_fault.
  - by apply copyWords_no_fault.
  - by apply insertString_no_fault.
  - by apply delete_no_fault.
  - apply scans_no_fault; try done.
    + intros s Hs. by apply right_tests_return.
    + intros s Hs. by apply right_tests_return.
    + intros s Hs. split; [by apply delete_no_fault|].
      intros s'. by apply delete_well_formed.
Qed.

(** X19: in every state that the methods bring a buffer into, no method
    dereferences a null or dangling pointer, frees a cell twice or
    indexes a string out of range, whatever its arguments: a call
    returns, or it is still running when its fuel is spent. *)
Theorem methods_never_fault (b : EditorBuffer) (fuel : nat) (m : method) :
  reachable b → call fuel m b ≠ Fault.
Proof. intros Hwf%reachable_well_formed. by apply call_no_fault. Qed.

Lemma methods_never_fault_witness :
  reachable (example_buffer "ab" "cd") ∧
  call 1 (CopyWords (-3)) (example_buffer "ab" "cd") ≠ Fault.
Proof.
  split; [apply example_buffer_reachable|].
  apply methods_never_fault, example_buffer_reachable.
Defined.

(** ** Termination *)




